(** * mcts_general.game: the deep-copyable game layer of the tree search

    A shallow embedding of [src/mcts_general/game.py].  Python objects that
    are mutated in place and may be shared live in an explicit [World]:
    the wrapped gym environments in a heap addressed by references, and the
    module [numpy.random], which every game binds as [self.rand], as one
    process-wide generator.  Methods are computations in a state-and-exception
    monad over that world; an exception keeps the mutations made before it
    was raised, as in Python. *)

From Stdlib Require Import ZArith QArith Lia Ascii.
From stdpp Require Import base option list gmap.

Local Open Scope Z_scope.

(** ** Python values *)

(** The exceptions the modelled code can raise.  [DanglingReference] has no
    Python counterpart: a Python reference always denotes a live object; the
    model needs an outcome for a lookup outside the heap. *)
Inductive exn :=
| ValueError | IndexError | ZeroDivisionError | AssertionError | TypeError
| AttributeError | UnboundLocalError | DanglingReference.

(** An action as Python sees it: an [int] or a [float]. *)
Inductive number :=
| PyInt (z : Z)
| PyFloat (q : Q).

(** What a [step] method returns: a tuple [(obs, rew, done)] or a tuple
    [(obs, rew, done, info)].  The two differ in length, which is what tuple
    unpacking checks. *)
Inductive step_result :=
| Triple (obs : list Q) (rew : Q) (done : bool)
| Quadruple (obs : list Q) (rew : Q) (done : bool).

(** [a, b, c = t]: a tuple of another length is a [ValueError]. *)
Definition unpack3 (t : step_result) : exn + (list Q * Q * bool) :=
  match t with
  | Triple obs rew done => inr (obs, rew, done)
  | Quadruple _ _ _ => inl ValueError
  end.

(** [a, b, c, _ = t]. *)
Definition unpack4 (t : step_result) : exn + (list Q * Q * bool) :=
  match t with
  | Triple _ _ _ => inl ValueError
  | Quadruple obs rew done => inr (obs, rew, done)
  end.

(** [[cos_theta, sin_theta, theta_dot] = obs]. *)
Definition unpack_obs (obs : list Q) : exn + (Q * Q * Q) :=
  match obs with
  | [c; s; t] => inr (c, s, t)
  | _ => inl ValueError
  end.

(** [x / n] for a float [x] and an int [n]. *)
Definition py_div (x : Q) (n : Z) : exn + Q :=
  if n =? 0 then inl ZeroDivisionError else inr (x / inject_Z n)%Q.

(** [int(x)]: the identity on an int, truncation toward zero on a float. *)
Definition py_int (x : number) : Z :=
  match x with
  | PyInt z => z
  | PyFloat q => Z.quot (Qnum q) (Zpos (Qden q))
  end.

(** [float(x)]. *)
Definition py_float (x : number) : Q :=
  match x with
  | PyInt z => inject_Z z
  | PyFloat q => q
  end.

(** [l[i]] on a Python list: negative indices count from the end. *)
Definition py_index {A} (l : list A) (i : Z) : exn + A :=
  let n := Z.of_nat (length l) in
  let j := if i <? 0 then i + n else i in
  if (j <? 0) || (n <=? j) then inl IndexError
  else match l !! Z.to_nat j with
       | Some x => inr x
       | None => inl IndexError
       end.

(** [[i for i in range(n)]]. *)
Definition py_range (n : Z) : list Z :=
  Z.of_nat <$> seq 0 (Z.to_nat n).

(** [numpy.ones(n) * action]: [n] copies of the action as a float; a negative
    dimension is a [ValueError]. *)
Definition numpy_ones_times (n : Z) (action : Z) : exn + list Q :=
  if n <? 0 then inl ValueError
  else inr (replicate (Z.to_nat n) (inject_Z action)).

(** [numpy.sign]. *)
Definition numpy_sign (q : Q) : Z := Z.sgn (Qnum q).

(** [numpy.clip(a, low, high)] with a scalar [a] broadcast against the bound
    arrays: element-wise [minimum(maximum(a, low), high)]. *)
Definition clip1 (a lo hi : Q) : Q :=
  let m := if Qle_bool lo a then a else lo in
  if Qle_bool m hi then m else hi.

Definition numpy_clip (a : Q) (low high : list Q) : list Q :=
  zip_with (clip1 a) low high.

(** ** The external collaborators *)

(** What a gym environment accepts in [env.step]. *)
Inductive env_action :=
| Index (i : Z)
| Vector (v : list Q).

(** [env.action_space]. *)
Inductive Space :=
| Discrete (n : Z)
| Box (low high : list Q).

(** The wrapped environment: [env.step] returns observation, reward,
    terminated and truncated (the info dictionary carries nothing the code
    reads); [env.seed] reseeds it.  [pendulum_make num_actions damping] is the
    state of [DiscreteActionWrapper(gym.make("Pendulum-v0"), ...)]. *)
Class Environment := {
  env_state : Type;
  env_step : env_state → env_action → env_state * (list Q * Q * bool * bool);
  env_seed : env_state → Z → env_state;
  pendulum_make : Z → Q → env_state;
}.

(** The state of numpy's global generator is determined by the seed it was
    last given and by the draws made since. *)
Inductive draw :=
| Randint (high : Z)
| RandomIntegers (low high : Z)
| Normal (mu sigma : Q).

Record RandomState := {
  seeded_with : option Z;
  drawn : list draw;
}.

(** The values the generator produces in a given state and the seeds it
    accepts. *)
Class Generator := {
  gen_seed_ok : Z → bool;
  gen_randint : RandomState → Z → Z;
  gen_random_integers : RandomState → Z → Z → Z;
  gen_normal : RandomState → Q → Q → Q;
}.

(** The ranges numpy documents for the integer draws. *)
Class GeneratorLaws (R : Generator) : Prop := {
  gen_randint_range : ∀ st high,
    0 < high → 0 ≤ gen_randint st high < high;
  gen_random_integers_range : ∀ st low high,
    low ≤ high → low ≤ gen_random_integers st low high ≤ high;
}.

(** ** The world *)

Definition loc := positive.

(** An environment object: its immutable action-space descriptor and its
    mutable state. *)
Record env_obj `{Environment} := {
  action_space : Space;
  state : env_state;
}.

Record World `{Environment} := {
  np_random : RandomState;
  heap : gmap loc env_obj;
}.

(** ** Game objects *)

(** A game object: its class and its attributes.  [env] is a reference to the
    environment object, [seed] is the private attribute [__seed].  The
    attribute [_macro_actions] of a Pendulum game is always the empty list
    its constructor passes and is hidden by the property of that class. *)
Inductive Game :=
| DiscreteGame (env : loc) (seed : Z)
| ContinuousGame (env : loc) (mu sigma : Q) (seed : Z)
| MacroGame (env : loc) (seed : Z) (_macro_actions : list (list Q))
| MultiStepGame (env : loc) (seed : Z) (n : Z)
    (_macro_actions : list (list Q))
| PendulumGame (env : loc) (n_act : Z) (damping : Q)
    (_max_macro_action_len : Z) (seed : Z).

(** [self.env]. *)
Definition env (self : Game) : loc :=
  match self with
  | DiscreteGame e _ | ContinuousGame e _ _ _ | MacroGame e _ _
  | MultiStepGame e _ _ _ | PendulumGame e _ _ _ _ => e
  end.

(** [DeepCopyableGame.get_seed]. *)
Definition get_seed (self : Game) : Z :=
  match self with
  | DiscreteGame _ s | ContinuousGame _ _ _ s | MacroGame _ s _
  | MultiStepGame _ s _ _ | PendulumGame _ _ _ _ s => s
  end.

(** [self.__seed = seed]. *)
Definition assign_seed (self : Game) (s : Z) : Game :=
  match self with
  | DiscreteGame e _ => DiscreteGame e s
  | ContinuousGame e mu sigma _ => ContinuousGame e mu sigma s
  | MacroGame e _ t => MacroGame e s t
  | MultiStepGame e _ n t => MultiStepGame e s n t
  | PendulumGame e k d c _ => PendulumGame e k d c s
  end.

(** [copy.env = e]. *)
Definition assign_env (self : Game) (e : loc) : Game :=
  match self with
  | DiscreteGame _ s => DiscreteGame e s
  | ContinuousGame _ mu sigma s => ContinuousGame e mu sigma s
  | MacroGame _ s t => MacroGame e s t
  | MultiStepGame _ s n t => MultiStepGame e s n t
  | PendulumGame _ k d c s => PendulumGame e k d c s
  end.

(** What [legal_actions] returns: a list of indices, or the pair of bound
    arrays of a continuous space. *)
Inductive legal :=
| Indices (l : list Z)
| Bounds (low high : list Q).

Section Games.
Context {E : Environment} {R : Generator}.

(** Computations: a world transformer returning a value or an exception. *)
Definition M (A : Type) : Type := World → World * (exn + A).

#[export] Instance M_ret : MRet M := λ A x w, (w, inr x).
#[export] Instance M_bind : MBind M := λ A B k m w,
  match m w with
  | (w', inr x) => k x w'
  | (w', inl e) => (w', inl e)
  end.

Definition raise {A} (e : exn) : M A := λ w, (w, inl e).

(** Lift a pure result that may be an exception. *)
Definition lift {A} (r : exn + A) : M A := λ w, (w, r).

Definition set_np_random (st : RandomState) : M unit :=
  λ w, ({| np_random := st; heap := heap w |}, inr ()).

Definition get_np_random : M RandomState := λ w, (w, inr (np_random w)).

(** [numpy.random.seed(seed)]. *)
Definition numpy_random_seed (seed : Z) : M unit :=
  if gen_seed_ok seed
  then set_np_random {| seeded_with := Some seed; drawn := [] |}
  else raise ValueError.

Definition record_draw (st : RandomState) (d : draw) : RandomState :=
  {| seeded_with := seeded_with st; drawn := drawn st ++ [d] |}.

(** [numpy.random.randint(high)]: a draw from [0, high). *)
Definition numpy_random_randint (high : Z) : M Z :=
  if high <=? 0 then raise ValueError
  else st ← get_np_random;
       set_np_random (record_draw st (Randint high));;
       mret (gen_randint st high).

(** [numpy.random.random_integers(low, high)], both ends included. *)
Definition numpy_random_random_integers (low high : Z) : M Z :=
  if high <? low then raise ValueError
  else st ← get_np_random;
       set_np_random (record_draw st (RandomIntegers low high));;
       mret (gen_random_integers st low high).

(** [numpy.random.normal(mu, sigma)]; a negative scale is rejected. *)
Definition numpy_random_normal (mu sigma : Q) : M Q :=
  if negb (Qle_bool 0 sigma) then raise ValueError
  else st ← get_np_random;
       set_np_random (record_draw st (Normal mu sigma));;
       mret (gen_normal st mu sigma).

(** Read the object a reference denotes. *)
Definition deref (l : loc) : M env_obj :=
  λ w, match heap w !! l with
       | Some e => (w, inr e)
       | None => (w, inl DanglingReference)
       end.

Definition store (l : loc) (e : env_obj) : M unit :=
  λ w, ({| np_random := np_random w; heap := <[l := e]> (heap w) |}, inr ()).

(** Allocate a new object. *)
Definition alloc (e : env_obj) : M loc :=
  λ w, let l := fresh (dom (heap w)) in
       ({| np_random := np_random w; heap := <[l := e]> (heap w) |}, inr l).

(** Modelled from the spec: [DeepCopyableWrapper], of
    [mcts_general.common.wrapper], is not among the sources; copying the
    adapter produces a fully independent value copy.  [deepcopy(env)] is a
    new object with the same value. *)
Definition deepcopy (l : loc) : M loc :=
  e ← deref l; alloc e.

(** ** GymGame *)

(** [GymGame.step]: one [env.step] on the game's own environment object;
    terminated and truncated are merged into done. *)
Definition GymGame_step (self : Game) (action : env_action) : M step_result :=
  e ← deref (env self);
  let '(s', (obs, rew, terminated, truncated)) := env_step (state e) action in
  store (env self) {| action_space := action_space e; state := s' |};;
  let done := terminated || truncated in
  mret (Triple obs rew done).

(** [DeepCopyableGame.set_seed]. *)
Definition DeepCopyableGame_set_seed (self : Game) (seed : Z) : M Game :=
  numpy_random_seed seed;;
  mret (assign_seed self seed).

(** [GymGame.set_seed]. *)
Definition GymGame_set_seed (self : Game) (seed : Z) : M Game :=
  e ← deref (env self);
  store (env self)
    {| action_space := action_space e; state := env_seed (state e) seed |};;
  DeepCopyableGame_set_seed self seed.

(** [self.env.action_space.n]. *)
Definition action_space_n (l : loc) : M Z :=
  e ← deref l;
  match action_space e with
  | Discrete n => mret n
  | Box _ _ => raise AttributeError
  end.

(** ** DiscreteGymGame *)

(** [DiscreteGymGame.__init__]: the assertion on the action space, then the
    constructors of the base classes, which bind [numpy.random] and store the
    seed. *)
Definition DiscreteGymGame_init (env : loc) (seed : Z) : M unit :=
  e ← deref env;
  match action_space e with
  | Discrete _ => mret ()
  | Box _ _ => raise AssertionError
  end.

Definition DiscreteGymGame_new (env : loc) (seed : Z) : M Game :=
  DiscreteGymGame_init env seed;;
  mret (DiscreteGame env seed).

(** [DiscreteGymGame.step]. *)
Definition DiscreteGymGame_step (self : Game) (action : number)
  : M step_result :=
  let action := py_int action in
  t ← GymGame_step self (Index action);
  '(obs, rew, done) ← lift (unpack3 t);
  mret (Triple obs rew done).

(** [DiscreteGymGame.legal_actions]. *)
Definition DiscreteGymGame_legal_actions (self : Game) : M (list Z) :=
  n ← action_space_n (env self);
  mret (py_range n).

(** [DiscreteGymGame.get_copy]. *)
Definition DiscreteGymGame_get_copy (self : Game) : M Game :=
  e ← deepcopy (env self);
  s ← numpy_random_randint 1000000000;
  DiscreteGymGame_new e s.

(** ** ContinuousGymGame *)

Definition ContinuousGymGame_new (env : loc) (mu sigma : Q) (seed : Z)
  : M Game :=
  mret (ContinuousGame env mu sigma seed).

(** [ContinuousGymGame.legal_actions]. *)
Definition ContinuousGymGame_legal_actions (self : Game)
  : M (list Q * list Q) :=
  e ← deref (env self);
  match action_space e with
  | Box low high => mret (low, high)
  | Discrete _ => raise AttributeError
  end.

(** [ContinuousGymGame.sample_action]: the draw, then [numpy.clip(...)[0]]. *)
Definition ContinuousGymGame_sample_action (self : Game) (mu sigma : Q)
  : M Q :=
  action ← numpy_random_normal mu sigma;
  b0 ← ContinuousGymGame_legal_actions self;
  b1 ← ContinuousGymGame_legal_actions self;
  lift (py_index (numpy_clip action (fst b0) (snd b1)) 0).

(** [ContinuousGymGame.get_copy]. *)
Definition ContinuousGymGame_get_copy (self : Game) (mu sigma : Q) : M Game :=
  e ← deepcopy (env self);
  s ← numpy_random_randint 1000000000;
  ContinuousGymGame_new e mu sigma s.

(** [ContinuousGymGame.step]. *)
Definition ContinuousGymGame_step (self : Game) (action : number)
  : M step_result :=
  GymGame_step self (Vector [py_float action]).

(** ** GymGameWithMacroActions *)

(** [GymGameWithMacroActions.__init__]. *)
Definition GymGameWithMacroActions_new (env : loc) (seed : Z)
    (macro_actions : list (list Q)) : M Game :=
  DiscreteGymGame_init env seed;;
  mret (MacroGame env seed macro_actions).

Section Composer.
(** The two names [GymGameWithMacroActions.step] resolves on the instance:
    the [step] that [super(GymGameWithMacroActions, self)] reaches, and the
    property [self.macro_actions]. *)
Variable super_step : Game → number → M step_result.
Variable macro_actions : Game → M (list (list Q)).

(** The loop [for a in mac_act], with the variables [reward], [obs] and
    [done] it assigns; [obs] and [done] are unbound before the first
    iteration. *)
Fixpoint traverse (self : Game) (mac_act : list Q) (reward : Q)
    (last : option (list Q * bool)) : M (Q * option (list Q * bool)) :=
  match mac_act with
  | [] => mret (reward, last)
  | a :: rest =>
      t ← super_step self (PyFloat a);
      '(obs, rew, done) ← lift (unpack4 t);
      traverse self rest (reward + rew)%Q (Some (obs, done))
  end.

(** [GymGameWithMacroActions.step], the branch taken in simulation. *)
Definition simulation_branch (self : Game) (action : number)
  : M step_result :=
  table ← macro_actions self;
  mac_act ← match action with
            | PyInt i => lift (py_index table i)
            | PyFloat _ => raise TypeError
            end;
  '(reward, last) ← traverse self mac_act 0%Q None;
  reward ← lift (py_div reward (Z.of_nat (length mac_act)));
  match last with
  | Some (obs, done) => mret (Triple obs reward done)
  | None => raise UnboundLocalError
  end.

(** [GymGameWithMacroActions.step], the branch taken in evaluation. *)
Definition evaluation_branch (self : Game) (action : number)
  : M step_result :=
  t ← super_step self action;
  '(obs, reward, done) ← lift (unpack4 t);
  mret (Triple obs reward done).

(** [GymGameWithMacroActions.step]. *)
Definition GymGameWithMacroActions_step_with (self : Game)
    (action : number) (simulation : bool) : M step_result :=
  if simulation then simulation_branch self action
  else evaluation_branch self action.
End Composer.

(** [GymGameWithMacroActions.legal_actions], over the property it reads. *)
Definition GymGameWithMacroActions_legal_actions_with
    (macro_actions : Game → M (list (list Q)))
    (self : Game) (simulation : bool) : M (list Z) :=
  if simulation then
    table ← macro_actions self;
    mret (py_range (Z.of_nat (length table)))
  else
    n ← action_space_n (env self);
    mret (py_range n).

(** [GymGameWithMacroActions.macro_actions]: the stored table. *)
Definition GymGameWithMacroActions_macro_actions (self : Game)
  : M (list (list Q)) :=
  match self with
  | MacroGame _ _ t | MultiStepGame _ _ _ t => mret t
  | PendulumGame _ _ _ _ _ => mret []
  | _ => raise AttributeError
  end.

(** [GymGameWithMacroActions.get_copy]. *)
Definition GymGameWithMacroActions_get_copy (self : Game) : M Game :=
  e ← deepcopy (env self);
  s ← numpy_random_randint 1000000000;
  t ← GymGameWithMacroActions_macro_actions self;
  GymGameWithMacroActions_new e s t.

(** ** GymGameDoingMultipleStepsInSimulations *)

(** [[numpy.ones(self.n) * action for action in self.legal_actions()]]. *)
Fixpoint repeated_actions (n : Z) (actions : list Z) : exn + list (list Q) :=
  match actions with
  | [] => inr []
  | action :: rest =>
      match numpy_ones_times n action with
      | inl e => inl e
      | inr m =>
          match repeated_actions n rest with
          | inl e => inl e
          | inr ms => inr (m :: ms)
          end
      end
  end.

(** [GymGameDoingMultipleStepsInSimulations.__init__]. *)
Definition GymGameDoingMultipleStepsInSimulations_new (env : loc) (seed : Z)
    (number_of_multiple_actions_in_simulation : Z) : M Game :=
  let n := number_of_multiple_actions_in_simulation in
  k ← action_space_n env;
  macro_actions ← lift (repeated_actions n (py_range k));
  DiscreteGymGame_init env seed;;
  mret (MultiStepGame env seed n macro_actions).

(** [GymGameDoingMultipleStepsInSimulations.get_copy]. *)
Definition GymGameDoingMultipleStepsInSimulations_get_copy (self : Game)
    (n : Z) : M Game :=
  e ← deepcopy (env self);
  s ← numpy_random_randint 1000000000;
  GymGameDoingMultipleStepsInSimulations_new e s n.

(** ** PendulumGameWithEngineeredMacroActions *)

(** Modelled from the spec: [DiscreteActionWrapper], of
    [mcts_general.common.wrapper], is not among the sources; it is the
    adapter that turns a continuous control signal into a discrete index, so
    the environment it wraps exposes the index set of [num_actions]
    actions. *)
Definition DiscreteActionWrapper (num_actions : Z) (damping : Q) : env_obj :=
  {| action_space := Discrete num_actions;
     state := pendulum_make num_actions damping |}.

(** [PendulumGameWithEngineeredMacroActions.__init__]. *)
Definition PendulumGameWithEngineeredMacroActions_new (num_actions : Z)
    (action_damping : Q) (seed : Z) (max_macro_action_len : Z) : M Game :=
  env ← alloc (DiscreteActionWrapper num_actions action_damping);
  DiscreteGymGame_init env seed;;
  mret (PendulumGame env num_actions action_damping max_macro_action_len seed).

(** [PendulumGameWithEngineeredMacroActions.get_copy]. *)
Definition PendulumGameWithEngineeredMacroActions_get_copy (self : Game)
    (n_act : Z) (damping : Q) (max_macro_action_len : Z) : M Game :=
  s ← numpy_random_randint 1000000000;
  copy ← PendulumGameWithEngineeredMacroActions_new
           n_act damping s max_macro_action_len;
  e ← deepcopy (env self);
  mret (assign_env copy e).

Section Discovery.
(** The names the property resolves on the instance: [self.get_copy] and
    the [step] of the copy. *)
Variable self_get_copy : Game → M Game.
Variable copy_step : Game → number → M step_result.
Variable cap : Z.

(** The [while] loop.  Every iteration increments [it], so the guard
    [it <= cap] fails after at most [cap] iterations; [fuel] bounds the
    recursion and is never exhausted when it is at least [cap + 1 - it]. *)
Fixpoint repeat_action (fuel : nat) (game_copy : Game) (action : Z)
    (sign : Z) (theta_dot : Q) (it : Z) (done : bool) : M Z :=
  if (sign =? numpy_sign theta_dot) && (it <=? cap) && negb done then
    match fuel with
    | O => mret it
    | S fuel =>
        t ← copy_step game_copy (PyInt action);
        '(obs, _, done) ← lift (unpack3 t);
        '(_, _, theta_dot) ← lift (unpack_obs obs);
        repeat_action fuel game_copy action sign theta_dot (it + 1) done
    end
  else mret it.

(** The body of [for action in ...]. *)
Definition discover (self : Game) (action : Z) : M (list Q) :=
  game_copy ← self_get_copy self;
  t ← copy_step game_copy (PyInt action);
  '(obs, _, done) ← lift (unpack3 t);
  '(_, _, theta_dot) ← lift (unpack_obs obs);
  let sign := numpy_sign theta_dot in
  it ← repeat_action (Z.to_nat cap) game_copy action sign theta_dot 1 done;
  lift (numpy_ones_times it action).

Fixpoint discover_all (self : Game) (actions : list Z)
    (macro_actions : list (list Q)) : M (list (list Q)) :=
  match actions with
  | [] => mret macro_actions
  | action :: rest =>
      m ← discover self action;
      discover_all self rest (macro_actions ++ [m])
  end.

(** [PendulumGameWithEngineeredMacroActions.macro_actions].  The legal
    actions are asked for with [simulation=False], a mode that does not read
    the table. *)
Definition PendulumGameWithEngineeredMacroActions_macro_actions_with
    (self : Game) : M (list (list Q)) :=
  actions ← GymGameWithMacroActions_legal_actions_with
              GymGameWithMacroActions_macro_actions self false;
  discover_all self actions [].
End Discovery.

(** ** Method resolution

    Each method name resolved on the class of the instance. *)

(** [DiscreteGymGame.sample_action], over the [legal_actions] of the
    instance. *)
Definition DiscreteGymGame_sample_action_with
    (legal_actions : Game → bool → M (list Z))
    (self : Game) (simulation : bool) : M Z :=
  legal_actions ← legal_actions self simulation;
  k ← numpy_random_random_integers 0 (Z.of_nat (length legal_actions) - 1);
  lift (py_index legal_actions k).

(** [self.get_copy()]. *)
Definition get_copy (self : Game) : M Game :=
  match self with
  | DiscreteGame _ _ => DiscreteGymGame_get_copy self
  | ContinuousGame _ mu sigma _ => ContinuousGymGame_get_copy self mu sigma
  | MacroGame _ _ _ => GymGameWithMacroActions_get_copy self
  | MultiStepGame _ _ n _ =>
      GymGameDoingMultipleStepsInSimulations_get_copy self n
  | PendulumGame _ n_act damping cap _ =>
      PendulumGameWithEngineeredMacroActions_get_copy self n_act damping cap
  end.

(** [self.macro_actions]: the stored table, or for a Pendulum game the
    discovery, in which [game_copy.step(action)] is the evaluation branch of
    [GymGameWithMacroActions.step] above [DiscreteGymGame.step]. *)
Definition macro_actions (self : Game) : M (list (list Q)) :=
  match self with
  | PendulumGame _ _ _ cap _ =>
      PendulumGameWithEngineeredMacroActions_macro_actions_with
        get_copy (evaluation_branch DiscreteGymGame_step) cap self
  | _ => GymGameWithMacroActions_macro_actions self
  end.

(** [GymGameWithMacroActions.step] as the repository binds it. *)
Definition GymGameWithMacroActions_step
  : Game → number → bool → M step_result :=
  GymGameWithMacroActions_step_with DiscreteGymGame_step macro_actions.

(** [GymGameWithMacroActions.legal_actions] as the repository binds it. *)
Definition GymGameWithMacroActions_legal_actions
  : Game → bool → M (list Z) :=
  GymGameWithMacroActions_legal_actions_with macro_actions.

(** [self.step(action, simulation)]. *)
Definition step (self : Game) (action : number) (simulation : bool)
  : M step_result :=
  match self with
  | DiscreteGame _ _ => DiscreteGymGame_step self action
  | ContinuousGame _ _ _ _ => ContinuousGymGame_step self action
  | _ => GymGameWithMacroActions_step self action simulation
  end.

(** [self.legal_actions(simulation)]. *)
Definition legal_actions (self : Game) (simulation : bool) : M legal :=
  match self with
  | DiscreteGame _ _ =>
      l ← DiscreteGymGame_legal_actions self; mret (Indices l)
  | ContinuousGame _ _ _ _ =>
      b ← ContinuousGymGame_legal_actions self; mret (Bounds (fst b) (snd b))
  | _ =>
      l ← GymGameWithMacroActions_legal_actions self simulation;
      mret (Indices l)
  end.

(** [self.sample_action(simulation)]. *)
Definition sample_action (self : Game) (simulation : bool) : M number :=
  match self with
  | DiscreteGame _ _ =>
      a ← DiscreteGymGame_sample_action_with
            (λ g _, DiscreteGymGame_legal_actions g) self simulation;
      mret (PyInt a)
  | ContinuousGame _ mu sigma _ =>
      a ← ContinuousGymGame_sample_action self mu sigma; mret (PyFloat a)
  | _ =>
      a ← DiscreteGymGame_sample_action_with
            GymGameWithMacroActions_legal_actions self simulation;
      mret (PyInt a)
  end.

(** [self.set_seed(seed)]: no class overrides [GymGame.set_seed]. *)
Definition set_seed (self : Game) (seed : Z) : M Game :=
  GymGame_set_seed self seed.

End Games.

(** ** Notions the properties are stated with *)

Section Notions.
Context {E : Environment} {R : Generator}.

(** The configuration a game was constructed with, apart from its
    environment and its seed. *)
Inductive Config :=
| DiscreteConfig
| ContinuousConfig (mu sigma : Q)
| MacroConfig (macro_actions : list (list Q))
| MultiStepConfig (n : Z)
| PendulumConfig (num_actions : Z) (action_damping : Q)
    (max_macro_action_len : Z).

Definition config (g : Game) : Config :=
  match g with
  | DiscreteGame _ _ => DiscreteConfig
  | ContinuousGame _ mu sigma _ => ContinuousConfig mu sigma
  | MacroGame _ _ t => MacroConfig t
  | MultiStepGame _ _ n _ => MultiStepConfig n
  | PendulumGame _ k d c _ => PendulumConfig k d c
  end.

(** [g] is a game its constructor can have returned in [w]: its environment
    is live, the classes that assert a discrete action space have one, and
    the repetition count of a multiple-steps game was accepted by
    [numpy.ones]. *)
Definition constructed (w : World) (g : Game) : bool :=
  match heap w !! env g with
  | None => false
  | Some e =>
      match g, action_space e with
      | ContinuousGame _ _ _ _, _ => true
      | MultiStepGame _ _ n _, Discrete k => (0 <=? n) || (k <=? 0)
      | _, Discrete _ => true
      | _, Box _ _ => false
      end
  end.

(** [g] has something to sample from in the action space [sp]: a discrete
    space with at least one action, or a continuous space with at least one
    dimension and a standard deviation numpy accepts. *)
Definition samplable (g : Game) (sp : Space) : bool :=
  match g, sp with
  | ContinuousGame _ _ sigma _, Box (_ :: _) (_ :: _) => Qle_bool 0 sigma
  | ContinuousGame _ _ _ _, _ => false
  | _, Discrete k => 1 <=? k
  | _, Box _ _ => false
  end.

Definition can_sample (w : World) (g : Game) : bool :=
  match heap w !! env g with
  | None => false
  | Some e => samplable g (action_space e)
  end.

(** The value [sample_action] returns on a samplable space when the
    generator is in the state [st]. *)
Definition sample_value (g : Game) (sp : Space) (st : RandomState) : number :=
  match g, sp with
  | ContinuousGame _ mu sigma _, Box (l0 :: _) (h0 :: _) =>
      PyFloat (clip1 (gen_normal st mu sigma) l0 h0)
  | ContinuousGame _ _ _ _, _ => PyFloat 0
  | _, Discrete k => PyInt (gen_random_integers st 0 (k - 1))
  | _, Box _ _ => PyInt 0
  end.

(** The stored seed is the seed the generator was last given. *)
Definition seed_agrees (w : World) (g : Game) : Prop :=
  seeded_with (np_random w) = Some (get_seed g).

(** [g.set_seed(s); o1 = g.sample_action(); g.set_seed(s);
    o2 = g.sample_action()]. *)
Definition seed_sample_twice (g : Game) (s : Z) : M (number * number) :=
  g ← set_seed g s;
  o1 ← sample_action g false;
  g ← set_seed g s;
  o2 ← sample_action g false;
  mret (o1, o2).

(** A call a planner makes on a game, and what it gets back. *)
Inductive call :=
| CallStep (action : number) (simulation : bool)
| CallLegalActions (simulation : bool).

Inductive answer :=
| Stepped (r : step_result)
| Legal (l : legal).

Definition perform (g : Game) (c : call) : M answer :=
  match c with
  | CallStep a sim => r ← step g a sim; mret (Stepped r)
  | CallLegalActions sim => l ← legal_actions g sim; mret (Legal l)
  end.

(** The results of a sequence of calls on [g], exceptions included. *)
Fixpoint results (g : Game) (calls : list call) (w : World)
  : list (exn + answer) :=
  match calls with
  | [] => []
  | c :: rest => let '(w', r) := perform g c w in r :: results g rest w'
  end.

(** [reward] after the loop: the rewards added one by one to [0.]. *)
Definition total_reward (l : list (list Q * Q * bool)) : Q :=
  fold_left (λ acc r, (acc + r.1.2)%Q) l 0%Q.

(** The macro-action composition in the words of the specification: the
    primitives are applied in order, consumption stops the moment done
    becomes true, and the reward is the mean of the rewards of the
    primitives actually executed. *)
Fixpoint spec_executed (s : env_state) (prims : list Q)
  : env_state * list (list Q * Q * bool) :=
  match prims with
  | [] => (s, [])
  | a :: rest =>
      let '(s', (obs, rew, terminated, truncated)) :=
        env_step s (Index (py_int (PyFloat a))) in
      if terminated || truncated then (s', [(obs, rew, true)])
      else let '(s'', l) := spec_executed s' rest in
           (s'', (obs, rew, false) :: l)
  end.

Definition spec_macro_reward (s : env_state) (prims : list Q) : Q :=
  let l := (spec_executed s prims).2 in
  (total_reward l / inject_Z (Z.of_nat (length l)))%Q.

(** The world after an assignment to the object at [l]. *)
Definition updated (w : World) (l : loc) (e : env_obj) : World :=
  {| np_random := np_random w; heap := <[l := e]> (heap w) |}.

(** The world after a draw. *)
Definition drew (w : World) (d : draw) : World :=
  {| np_random := record_draw (np_random w) d; heap := heap w |}.

(** The world after [numpy.random.seed(s)]. *)
Definition reseeded (w : World) (s : Z) : World :=
  {| np_random := {| seeded_with := Some s; drawn := [] |}; heap := heap w |}.

(** The object after one [env.step]. *)
Definition stepped (e : env_obj) (a : env_action) : env_obj :=
  {| action_space := action_space e; state := (env_step (state e) a).1 |}.

(** What that [env.step] returned, with done merged. *)
Definition observed (e : env_obj) (a : env_action) : step_result :=
  let '(obs, rew, terminated, truncated) := (env_step (state e) a).2 in
  Triple obs rew (terminated || truncated).

(** The object after [env.seed(s)]. *)
Definition env_reseeded (e : env_obj) (s : Z) : env_obj :=
  {| action_space := action_space e; state := env_seed (state e) s |}.

(** An object with its state replaced. *)
Definition with_state (e : env_obj) (s : env_state) : env_obj :=
  {| action_space := action_space e; state := s |}.

(** The reference the next allocation returns. *)
Definition fresh_loc (w : World) : loc := fresh (dom (heap w)).

(** On every world where the environment of [g] is [e], the computation [m]
    has the outcome [r], leaves [e'] as the environment of [g], and writes to
    no other live object. *)
Definition runs_to {A} (g : Game) (m : M A) (e : env_obj) (r : exn + A)
    (e' : env_obj) : Prop :=
  ∀ w, heap w !! env g = Some e →
    ∃ w', m w = (w', r)
          ∧ heap w' !! env g = Some e'
          ∧ ∀ l, l ≠ env g → is_Some (heap w !! l) →
                 heap w' !! l = heap w !! l.

(** What the property [macro_actions] of a Pendulum game comes to. *)
Definition discovered (sp : Space) : exn + list (list Q) :=
  match sp with
  | Box _ _ => inl AttributeError
  | Discrete k => if k <=? 0 then inr [] else inl ValueError
  end.

End Notions.

(** ** A concrete environment and generator *)

Module Fixture.

(** An environment that counts its steps: the angular velocity is positive
    up to [flip_after] steps and negative from then on, the reward is the
    number of steps taken, and the episode terminates at [done_after]
    steps. *)
Record pendulum := {
  steps : Z;
  flip_after : Z;
  done_after : Z;
}.

Definition pendulum_step (s : pendulum) (a : env_action)
  : pendulum * (list Q * Q * bool * bool) :=
  let k := steps s + 1 in
  ({| steps := k; flip_after := flip_after s; done_after := done_after s |},
   ([1%Q; 0%Q; if k <=? flip_after s then 1%Q else (-1)%Q],
    inject_Z k, done_after s <=? k, false)).

#[export] Instance counting : Environment := {|
  env_state := pendulum;
  env_step := pendulum_step;
  env_seed := λ s _, s;
  pendulum_make := λ _ _, {| steps := 0; flip_after := 3; done_after := 200 |};
|}.

(** A generator whose values are the seed plus the number of draws made,
    reduced to the requested range. *)
Definition position (st : RandomState) : Z :=
  default 0 (seeded_with st) + Z.of_nat (length (drawn st)).

#[export] Instance counter : Generator := {|
  gen_seed_ok := λ s, (0 <=? s) && (s <? 2 ^ 32);
  gen_randint := λ st high, position st `mod` high;
  gen_random_integers := λ st low high,
    low + position st `mod` (high - low + 1);
  gen_normal := λ st mu sigma, (mu + sigma * inject_Z (position st))%Q;
|}.

(** A fresh interpreter: the generator was never seeded. *)
Definition unseeded : RandomState := {| seeded_with := None; drawn := [] |}.

Definition world (envs : list (loc * env_obj)) : World :=
  {| np_random := unseeded; heap := list_to_map envs |}.

Definition discrete_env (n flip done : Z) : env_obj :=
  {| action_space := Discrete n;
     state := {| steps := 0; flip_after := flip; done_after := done |} |}.

Definition box_env (low high : list Q) : env_obj :=
  {| action_space := Box low high;
     state := {| steps := 0; flip_after := 3; done_after := 200 |} |}.

(** Two discrete games on environments of four actions. *)
Definition first_game : Game := DiscreteGame 1%positive 0.
Definition second_game : Game := DiscreteGame 2%positive 0.
Definition two_games : World :=
  world [(1%positive, discrete_env 4 100 200);
         (2%positive, discrete_env 4 100 200)].

(** A game whose episode is done after the second step, with one
    macro-action of four primitives. *)
Definition short_episode : World := world [(1%positive, discrete_env 2 100 2)].
Definition four_primitives : Game :=
  MacroGame 1%positive 0 [[0%Q; 0%Q; 0%Q; 0%Q]].

(** A Pendulum game of two actions whose angular velocity never changes sign
    and whose episode does not end, with a cap of 2. *)
Definition steady : World := world [(1%positive, discrete_env 2 100 200)].
Definition capped_at_two : Game := PendulumGame 1%positive 2 (1 # 2) 2 0.

(** A continuous game with bounds [-2, 2]. *)
Definition bounded : World := world [(1%positive, box_env [(-2)%Q] [2%Q])].
Definition continuous : Game := ContinuousGame 1%positive 0 1 0.

(** The environment of [short_episode] after [k] steps. *)
Definition after (k : Z) : env_obj :=
  {| action_space := Discrete 2;
     state := {| steps := k; flip_after := 100; done_after := 2 |} |}.

(** A macro-action game with an empty table. *)
Definition no_macro_actions : Game := MacroGame 1%positive 0 [].

End Fixture.

(** ** Further notions *)

Section Classes.
Context {E : Environment} {R : Generator}.

(** The classes derived from [GymGameWithMacroActions]. *)
Definition is_macro (g : Game) : bool :=
  match g with
  | DiscreteGame _ _ | ContinuousGame _ _ _ _ => false
  | _ => true
  end.

Definition is_continuous (g : Game) : bool :=
  match g with
  | ContinuousGame _ _ _ _ => true
  | _ => false
  end.

(** What a discrete or continuous game passes to [env.step] for an
    action: [int(action)], or the list [[action]]. *)
Definition primitive (g : Game) (a : number) : env_action :=
  match g with
  | ContinuousGame _ _ _ _ => Vector [py_float a]
  | _ => Index (py_int a)
  end.

(** The table stored in a macro-action game. *)
Definition stored_table (g : Game) : list (list Q) :=
  match g with
  | MacroGame _ _ t | MultiStepGame _ _ _ t => t
  | _ => []
  end.

(** The classes whose property [macro_actions] is the stored table. *)
Definition has_stored_table (g : Game) : bool :=
  match g with
  | MacroGame _ _ _ | MultiStepGame _ _ _ _ => true
  | _ => false
  end.

End Classes.

Section MoreNotions.
Context {E : Environment} {R : Generator}.

(** The [legal_actions] that [DiscreteGymGame.sample_action] resolves on the
    instance. *)
Definition discrete_legal_actions (g : Game) : Game → bool → M (list Z) :=
  match g with
  | DiscreteGame _ _ => λ g _, DiscreteGymGame_legal_actions g
  | _ => GymGameWithMacroActions_legal_actions
  end.

(** What [step(action, simulation=False)] comes to for a game of a given
    configuration on the environment [e]. *)
Definition evaluation_outcome (cfg : Config) (e : env_obj) (a : number)
  : exn + step_result :=
  match cfg with
  | DiscreteConfig => inr (observed e (Index (py_int a)))
  | ContinuousConfig _ _ => inr (observed e (Vector [py_float a]))
  | _ => inl ValueError
  end.

End MoreNotions.

Section Effects.
Context {E : Environment} {R : Generator}.

(** Whenever the computation [m] returns, it has made exactly the draws
    [ds] from the generator, in that order, and has not reseeded it. *)
Definition draws {A} (m : M A) (ds : list draw) : Prop :=
  ∀ w w' x, m w = (w', inr x) →
    np_random w' = foldl record_draw (np_random w) ds.

End Effects.

Section Draws.
Context {E : Environment} {R : Generator}.

(** The draw [sample_action] makes on a samplable space. *)
Definition sample_draw (g : Game) (sp : Space) : draw :=
  match g, sp with
  | ContinuousGame _ mu sigma _, _ => Normal mu sigma
  | _, Discrete k => RandomIntegers 0 (k - 1)
  | _, Box _ _ => RandomIntegers 0 (-1)
  end.

(** The state of the generator right after [numpy.random.seed(s)]. *)
Definition seeded (s : Z) : RandomState :=
  {| seeded_with := Some s; drawn := [] |}.

End Draws.

(** ** Reset, rendering and closing *)

(** The remaining operations of the wrapped environment: [env.reset]
    returns whatever the environment returns, [env.render] a frame, and both
    as well as [env.close] may change the state of the environment. *)
Class EnvironmentOps (E : Environment) := {
  frame : Type;
  reset_result : Type;
  env_reset : env_state → option Z → env_state * reset_result;
  env_render : env_state → env_state * frame;
  env_close : env_state → env_state;
}.

(** A game object with its attribute [render_copy]: [None], or the game
    object made for rendering. *)
#[warnings="-register-all"] Inductive GymGameObject :=
| Object (self : Game) (render_copy : option GymGameObject).

(** Induction along the chain of render copies. *)
Definition GymGameObject_chain_ind (P : GymGameObject → Prop)
    (Hnone : ∀ g, P (Object g None))
    (Hsome : ∀ g c, P c → P (Object g (Some c)))
  : ∀ o, P o :=
  fix go (o : GymGameObject) : P o :=
    match o with
    | Object g None => Hnone g
    | Object g (Some c) => Hsome g c (go c)
    end.

(** The environments of a game object and of its render copies. *)
Fixpoint chain_envs (o : GymGameObject) : list loc :=
  match o with
  | Object self render_copy =>
      env self :: match render_copy with
                  | Some c => chain_envs c
                  | None => []
                  end
  end.

Section Rendering.
Context {E : Environment} {R : Generator} {O : EnvironmentOps E}.

(** [GymGame.reset]. *)
Definition GymGame_reset (self : Game) (seed : option Z) : M reset_result :=
  e ← deref (env self);
  let '(s', r) := env_reset (state e) seed in
  store (env self) (with_state e s');;
  mret r.

(** [GymGame.close]. *)
Fixpoint GymGame_close (o : GymGameObject) : M unit :=
  match o with
  | Object self render_copy =>
      e ← deref (env self);
      store (env self) (with_state e (env_close (state e)));;
      match render_copy with
      | Some c => GymGame_close c
      | None => mret ()
      end
  end.

(** [x.env.render()]. *)
Definition render_env (x : Game) : M frame :=
  e ← deref (env x);
  let '(s', f) := env_render (state e) in
  store (env x) (with_state e s');;
  mret f.

(** [GymGame.render]: the object with its new [render_copy], and the
    frame. *)
Definition GymGame_render (o : GymGameObject) : M (GymGameObject * frame) :=
  match o with
  | Object self None =>
      c ← get_copy self;
      f ← render_env c;
      mret (Object self (Some (Object c None)), f)
  | Object self (Some old) =>
      GymGame_close old;;
      c ← get_copy self;
      f ← render_env c;
      mret (Object self (Some (Object c None)), f)
  end.

(** The render copies of [o] are live objects other than the environment of
    the game itself, and the game is one its constructor can have
    returned. *)
Definition renderable (w : World) (o : GymGameObject) : Prop :=
  match o with
  | Object self render_copy =>
      constructed w self = true
      ∧ Forall (λ l, l ≠ env self ∧ is_Some (heap w !! l))
          match render_copy with
          | Some c => chain_envs c
          | None => []
          end
  end.

(** The object after [env.close()]. *)
Definition closed (e : env_obj) : env_obj :=
  with_state e (env_close (state e)).

End Rendering.

(** ** The name of a game *)

(** [s.split(sep)] for a separator of one character: the pieces between the
    occurrences of the separator, at least one. *)
Fixpoint py_split (sep : ascii) (s : list ascii) : list (list ascii) :=
  match s with
  | [] => [[]]
  | c :: rest =>
      if Ascii.eqb c sep then [] :: py_split sep rest
      else match py_split sep rest with
           | piece :: pieces => (c :: piece) :: pieces
           | [] => [[c]]
           end
  end.

(** [GymGame.__str__], on the text [str(self.env)]. *)
Definition GymGame_str (env_str : list ascii) : exn + list ascii :=
  match py_index (py_split "<"%char env_str) (-1) with
  | inl err => inl err
  | inr inner =>
      match py_index (py_split ">"%char inner) 0 with
      | inl err => inl err
      | inr name =>
          py_index (py_split " "%char name) 0
      end
  end.

(** The three characters [__str__] splits at. *)
Definition delimiter (c : ascii) : bool :=
  Ascii.eqb c "<"%char || Ascii.eqb c ">"%char || Ascii.eqb c " "%char.

(** ** Further concrete games *)

Module Scenes.
Import Fixture.

(** Rendering shows the number of steps taken, resetting returns to the
    start, and a closed environment is marked by a negative count. *)
#[export] Instance counting_ops : EnvironmentOps counting := {|
  frame := Z;
  reset_result := list Q;
  env_reset := λ s _,
    ({| steps := 0; flip_after := flip_after s; done_after := done_after s |},
     [1%Q; 0%Q; 0%Q]);
  env_render := λ s, (s, steps s);
  env_close := λ s,
    {| steps := -1; flip_after := flip_after s; done_after := done_after s |};
|}.

(** A multiple-steps game on the first environment of [two_games], as its
    constructor returns it for a repetition count of 3. *)
Definition thrice : Game :=
  MultiStepGame 1%positive 0 3
    [[0%Q; 0%Q; 0%Q]; [1%Q; 1%Q; 1%Q]; [2%Q; 2%Q; 2%Q]; [3%Q; 3%Q; 3%Q]].

(** A macro-action game whose second macro-action is empty. *)
Definition with_empty_macro_action : Game :=
  MacroGame 1%positive 0 [[0%Q; 1%Q]; []].

(** The first game of [two_games] with the second as its render copy. *)
Definition rendered_once : GymGameObject :=
  Object first_game (Some (Object second_game None)).

(** The text [<TimeLimit<CartPoleEnv<CartPole-v1>>>] of a wrapped CartPole
    environment, and the name [CartPole-v1] in it. *)
Definition cartpole : list ascii :=
    ["<"; "T"; "i"; "m"; "e"; "L"; "i"; "m"; "i"; "t"; "<"; "C"; "a"; "r";
     "t"; "P"; "o"; "l"; "e"; "E"; "n"; "v"; "<"; "C"; "a"; "r"; "t"; "P";
     "o"; "l"; "e"; "-"; "v"; "1"; ">"; ">"; ">"]%char.

Definition cartpole_name : list ascii :=
    ["C"; "a"; "r"; "t"; "P"; "o"; "l"; "e"; "-"; "v"; "1"]%char.

End Scenes.

(** * Properties *)

(** The fixture's generator keeps its integer draws in range. *)
#[export] Instance counter_laws : GeneratorLaws Fixture.counter.
Proof.
  split; simpl; intros.
  - apply Z.mod_pos_bound. lia.
  - pose proof (Z.mod_pos_bound (Fixture.position st) (high - low + 1)). lia.
Qed.

Section Properties.
Context {E : Environment} {R : Generator}.

(** ** Running computations *)

Lemma run_bind {A B} (m : M A) (k : A → M B) (w : World) :
  (m ≫= k) w =
  match m w with
  | (w', inr x) => k x w'
  | (w', inl e) => (w', inl e)
  end.
Proof. reflexivity. Qed.

Lemma run_bind_ok {A B} (m : M A) (k : A → M B) (w w' : World) (x : A) :
  m w = (w', inr x) → (m ≫= k) w = k x w'.
Proof. intros H. rewrite run_bind, H. reflexivity. Qed.

Lemma run_bind_raise {A B} (m : M A) (k : A → M B) (w w' : World) (e : exn) :
  m w = (w', inl e) → (m ≫= k) w = (w', inl e).
Proof. intros H. rewrite run_bind, H. reflexivity. Qed.

(** Run the first computation of a sequence with the equation given. *)
Ltac run_ok H := rewrite (run_bind_ok _ _ _ _ _ H).
Ltac run_raise H := rewrite (run_bind_raise _ _ _ _ _ H).

Lemma run_deref (l : loc) (w : World) (e : env_obj) :
  heap w !! l = Some e → deref l w = (w, inr e).
Proof. intros H. unfold deref. rewrite H. reflexivity. Qed.

Lemma run_normal (mu sigma : Q) (w : World) :
  Qle_bool 0 sigma = true →
  numpy_random_normal mu sigma w =
  (drew w (Normal mu sigma), inr (gen_normal (np_random w) mu sigma)).
Proof. intros H. unfold numpy_random_normal. rewrite H. reflexivity. Qed.

Lemma run_random_integers (low high : Z) (w : World) :
  low ≤ high →
  numpy_random_random_integers low high w =
  (drew w (RandomIntegers low high),
   inr (gen_random_integers (np_random w) low high)).
Proof.
  intros H. unfold numpy_random_random_integers.
  destruct (high <? low) eqn:Hlt; [apply Z.ltb_lt in Hlt; lia |].
  reflexivity.
Qed.

Lemma run_randint (w : World) :
  numpy_random_randint 1000000000 w =
  (drew w (Randint 1000000000), inr (gen_randint (np_random w) 1000000000)).
Proof. reflexivity. Qed.

Lemma run_seed (s : Z) (w : World) :
  gen_seed_ok s = true → numpy_random_seed s w = (reseeded w s, inr ()).
Proof. intros H. unfold numpy_random_seed. rewrite H. reflexivity. Qed.

Lemma run_action_space_n (l : loc) (w : World) (e : env_obj) (n : Z) :
  heap w !! l = Some e → action_space e = Discrete n →
  action_space_n l w = (w, inr n).
Proof.
  intros H Hn. unfold action_space_n. run_ok (run_deref _ _ _ H).
  rewrite Hn. reflexivity.
Qed.

Lemma run_GymGame_step (g : Game) (a : env_action) (w : World) (e : env_obj) :
  heap w !! env g = Some e →
  GymGame_step g a w = (updated w (env g) (stepped e a), inr (observed e a)).
Proof.
  intros H. unfold GymGame_step. run_ok (run_deref _ _ _ H).
  unfold stepped, observed.
  destruct (env_step (state e) a) as [s' [[[obs rew] terminated] truncated]].
  reflexivity.
Qed.

Lemma observed_triple (e : env_obj) (a : env_action) :
  ∃ obs rew done, observed e a = Triple obs rew done.
Proof.
  unfold observed.
  destruct (env_step (state e) a).2 as [[[obs rew] terminated] truncated].
  eauto.
Qed.

Lemma run_DiscreteGymGame_step (g : Game) (a : number) (w : World)
    (e : env_obj) :
  heap w !! env g = Some e →
  DiscreteGymGame_step g a w =
  (updated w (env g) (stepped e (Index (py_int a))),
   inr (observed e (Index (py_int a)))).
Proof.
  intros H. unfold DiscreteGymGame_step.
  run_ok (run_GymGame_step _ (Index (py_int a)) _ _ H).
  destruct (observed_triple e (Index (py_int a))) as (obs & rew & done & ->).
  reflexivity.
Qed.

(** The evaluation branch above [DiscreteGymGame.step]: the environment is
    stepped once, then unpacking three values into four targets fails. *)
Lemma run_evaluation_branch (g : Game) (a : number) (w : World)
    (e : env_obj) :
  heap w !! env g = Some e →
  evaluation_branch DiscreteGymGame_step g a w =
  (updated w (env g) (stepped e (Index (py_int a))), inl ValueError).
Proof.
  intros H. unfold evaluation_branch.
  run_ok (run_DiscreteGymGame_step _ a _ _ H).
  destruct (observed_triple e (Index (py_int a))) as (obs & rew & done & ->).
  reflexivity.
Qed.

Lemma run_continuous_legal_actions (g : Game) (w : World) (e : env_obj)
    (low high : list Q) :
  heap w !! env g = Some e → action_space e = Box low high →
  ContinuousGymGame_legal_actions g w = (w, inr (low, high)).
Proof.
  intros H Hbox. unfold ContinuousGymGame_legal_actions.
  run_ok (run_deref _ _ _ H). rewrite Hbox. reflexivity.
Qed.

(** ** Clamping *)

Lemma clip1_bounds (a lo hi : Q) :
  (lo <= hi)%Q → (lo <= clip1 a lo hi <= hi)%Q.
Proof.
  intros Hle. unfold clip1.
  destruct (Qle_bool lo a) eqn:Hlo.
  - apply Qle_bool_iff in Hlo.
    destruct (Qle_bool a hi) eqn:Hhi.
    + apply Qle_bool_iff in Hhi. split; assumption.
    + split; [assumption | apply Qle_refl].
  - destruct (Qle_bool lo hi) eqn:Hhi.
    + split; [apply Qle_refl | assumption].
    + split; [assumption | apply Qle_refl].
Qed.

Lemma run_continuous_sample_action (g : Game) (mu sigma : Q) (w : World)
    (e : env_obj) (l0 h0 : Q) (low high : list Q) :
  heap w !! env g = Some e →
  action_space e = Box (l0 :: low) (h0 :: high) →
  Qle_bool 0 sigma = true →
  ContinuousGymGame_sample_action g mu sigma w =
  (drew w (Normal mu sigma),
   inr (clip1 (gen_normal (np_random w) mu sigma) l0 h0)).
Proof.
  intros He Hbox Hsigma. unfold ContinuousGymGame_sample_action.
  run_ok (run_normal mu sigma w Hsigma).
  assert (Hl : ContinuousGymGame_legal_actions g (drew w (Normal mu sigma))
               = (drew w (Normal mu sigma), inr (l0 :: low, h0 :: high)))
    by (apply run_continuous_legal_actions with e; assumption).
  run_ok Hl. run_ok Hl. reflexivity.
Qed.

(** C9: in a continuous game whose bound arrays start with [l0] and [h0],
    [l0 <= h0], [sample_action] returns, and the value it returns lies in the
    closed interval from [l0] to [h0], whatever the generator draws. *)
Theorem sample_action_within_bounds (self : Game) (mu sigma : Q) (w : World)
    (e : env_obj) (l0 h0 : Q) (low high : list Q) :
  heap w !! env self = Some e →
  action_space e = Box (l0 :: low) (h0 :: high) →
  Qle_bool 0 sigma = true →
  (l0 <= h0)%Q →
  ∃ v w', ContinuousGymGame_sample_action self mu sigma w = (w', inr v)
          ∧ (l0 <= v <= h0)%Q.
Proof.
  intros He Hbox Hsigma Hle.
  rewrite (run_continuous_sample_action _ _ _ _ _ _ _ _ _ He Hbox Hsigma).
  eexists _, _. split; [reflexivity | apply clip1_bounds; assumption].
Qed.

(** ** The macro-action table and the legal actions *)

(** C8 (as amended): when the macro-action table of a game is empty,
    [legal_actions(simulation=True)] returns normally, with the empty list;
    no error is signalled. *)
Theorem legal_actions_empty_table (g : Game) (w w' : World) :
  macro_actions g w = (w', inr []) →
  legal_actions g true w = (w', inr (Indices [])).
Proof.
  intros H.
  assert (Hl : GymGameWithMacroActions_legal_actions g true w = (w', inr [])).
  { unfold GymGameWithMacroActions_legal_actions,
      GymGameWithMacroActions_legal_actions_with.
    run_ok H. reflexivity. }
  destruct g; simpl in H |- *; try discriminate; run_ok Hl; reflexivity.
Qed.

(** ** Copies *)

Lemma fresh_loc_unused (w : World) : heap w !! fresh_loc w = None.
Proof. apply not_elem_of_dom. apply is_fresh. Qed.

Lemma run_alloc (e : env_obj) (w : World) :
  alloc e w = (updated w (fresh_loc w) e, inr (fresh_loc w)).
Proof. reflexivity. Qed.

Lemma run_deepcopy (l : loc) (w : World) (e : env_obj) :
  heap w !! l = Some e →
  deepcopy l w = (updated w (fresh_loc w) e, inr (fresh_loc w)).
Proof. intros H. unfold deepcopy. run_ok (run_deref _ _ _ H). reflexivity. Qed.

Lemma run_init (l : loc) (s : Z) (w : World) (e : env_obj) (k : Z) :
  heap w !! l = Some e → action_space e = Discrete k →
  DiscreteGymGame_init l s w = (w, inr ()).
Proof.
  intros H Hk. unfold DiscreteGymGame_init. run_ok (run_deref _ _ _ H).
  rewrite Hk. reflexivity.
Qed.

(** Writing at an unused reference leaves every live object as it was. *)
Lemma updated_frame (w : World) (l l' : loc) (e : env_obj) :
  heap w !! l = None → is_Some (heap w !! l') →
  heap (updated w l e) !! l' = heap w !! l'.
Proof.
  intros Hl [e' He']. apply lookup_insert_ne. intros ->. congruence.
Qed.

Lemma repeated_actions_ok (n : Z) (actions : list Z) :
  0 ≤ n → ∃ t, repeated_actions n actions = inr t.
Proof.
  intros Hn. induction actions as [| a rest [t IH]]; [eexists; reflexivity |].
  cbn [repeated_actions]. unfold numpy_ones_times.
  destruct (Z.ltb_spec n 0); [lia |]. rewrite IH. eexists; reflexivity.
Qed.

Lemma py_range_nonpositive (k : Z) : k ≤ 0 → py_range k = [].
Proof.
  intros H. unfold py_range. replace (Z.to_nat k) with 0%nat by lia.
  reflexivity.
Qed.

(** What [get_copy] does on a constructed game: it returns a game of the
    same configuration on a new environment object of the same value, seeded
    with a draw of the generator, and writes to no live object. *)
Lemma get_copy_spec (g : Game) (w : World) (e : env_obj) :
  heap w !! env g = Some e →
  constructed w g = true →
  ∃ c w1,
    get_copy g w = (w1, inr c)
    ∧ config c = config g
    ∧ get_seed c = gen_randint (np_random w) 1000000000
    ∧ heap w !! env c = None
    ∧ heap w1 !! env c = Some e
    ∧ (∀ l, is_Some (heap w !! l) → heap w1 !! l = heap w !! l)
    ∧ seeded_with (np_random w1) = seeded_with (np_random w).
Proof.
  intros He Hc. unfold constructed in Hc. rewrite He in Hc.
  set (l1 := fresh_loc w).
  set (w1 := updated w l1 e).
  set (w2 := drew w1 (Randint 1000000000)).
  assert (Hl1 : heap w2 !! l1 = Some e) by apply lookup_insert_eq.
  assert (Hframe : ∀ l, is_Some (heap w !! l) → heap w2 !! l = heap w !! l).
  { intros l Hl. apply (updated_frame w l1 l e); [apply fresh_loc_unused | exact Hl]. }
  destruct g as [l s | l mu sigma s | l s t | l s n t | l k d cap s];
    cbn [env] in He; cbn [get_copy].
  - destruct (action_space e) as [k |] eqn:Hk; [| discriminate].
    exists (DiscreteGame l1 (gen_randint (np_random w) 1000000000)), w2.
    split; [| cbn [env config get_seed]; repeat split; auto; apply fresh_loc_unused].
    unfold DiscreteGymGame_get_copy. cbn [env].
    run_ok (run_deepcopy _ _ _ He). run_ok (run_randint w1).
    unfold DiscreteGymGame_new.
    run_ok (run_init l1 (gen_randint (np_random w1) 1000000000) w2 e k Hl1 Hk).
    reflexivity.
  - exists (ContinuousGame l1 mu sigma (gen_randint (np_random w) 1000000000)), w2.
    split; [| cbn [env config get_seed]; repeat split; auto; apply fresh_loc_unused].
    unfold ContinuousGymGame_get_copy. cbn [env].
    run_ok (run_deepcopy _ _ _ He). run_ok (run_randint w1). reflexivity.
  - destruct (action_space e) as [k |] eqn:Hk; [| discriminate].
    exists (MacroGame l1 (gen_randint (np_random w) 1000000000) t), w2.
    split; [| cbn [env config get_seed]; repeat split; auto; apply fresh_loc_unused].
    unfold GymGameWithMacroActions_get_copy. cbn [env].
    run_ok (run_deepcopy _ _ _ He). run_ok (run_randint w1).
    rewrite run_bind. cbn [GymGameWithMacroActions_macro_actions mret M_ret].
    unfold GymGameWithMacroActions_new.
    run_ok (run_init l1 (gen_randint (np_random w1) 1000000000) w2 e k Hl1 Hk).
    reflexivity.
  - destruct (action_space e) as [k |] eqn:Hk; [| discriminate].
    assert (Ht : ∃ t', repeated_actions n (py_range k) = inr t').
    { apply orb_true_iff in Hc as [Hn | Hk0].
      - apply repeated_actions_ok. apply Z.leb_le. exact Hn.
      - rewrite py_range_nonpositive by (apply Z.leb_le; exact Hk0).
        eexists; reflexivity. }
    destruct Ht as [t' Ht].
    exists (MultiStepGame l1 (gen_randint (np_random w) 1000000000) n t'), w2.
    split; [| cbn [env config get_seed]; repeat split; auto; apply fresh_loc_unused].
    unfold GymGameDoingMultipleStepsInSimulations_get_copy. cbn [env].
    run_ok (run_deepcopy _ _ _ He). run_ok (run_randint w1).
    unfold GymGameDoingMultipleStepsInSimulations_new.
    run_ok (run_action_space_n l1 w2 e k Hl1 Hk). rewrite Ht.
    rewrite run_bind. cbn [lift].
    run_ok (run_init l1 (gen_randint (np_random w1) 1000000000) w2 e k Hl1 Hk).
    reflexivity.
  - clear w1 w2 Hl1 Hframe l1.
    set (w1 := drew w (Randint 1000000000)).
    set (l1 := fresh_loc w1).
    set (w2 := updated w1 l1 (DiscreteActionWrapper k d)).
    set (l2 := fresh_loc w2).
    set (w3 := updated w2 l2 e).
    assert (Hl1 : heap w2 !! l1 = Some (DiscreteActionWrapper k d))
      by apply lookup_insert_eq.
    assert (Hf1 : ∀ l', is_Some (heap w !! l') → heap w2 !! l' = heap w !! l').
    { intros l' Hl'.
      apply (updated_frame w1 l1 l' _); [apply fresh_loc_unused | exact Hl']. }
    assert (He2 : heap w2 !! l = Some e) by (rewrite Hf1; eauto).
    exists (PendulumGame l2 k d cap (gen_randint (np_random w) 1000000000)), w3.
    split.
    { unfold PendulumGameWithEngineeredMacroActions_get_copy. cbn [env].
      run_ok (run_randint w).
      unfold PendulumGameWithEngineeredMacroActions_new.
      rewrite run_bind. rewrite (run_bind (alloc _)), run_alloc.
      run_ok (run_init l1 (gen_randint (np_random w) 1000000000) w2 _ k Hl1 eq_refl).
      cbn [mret M_ret].
      run_ok (run_deepcopy l w2 e He2). reflexivity. }
    cbn [env config get_seed]. repeat split.
    + destruct (heap w !! l2) eqn:Hl2; [| reflexivity].
      rewrite <- Hf1 in Hl2 by eauto.
      pose proof (fresh_loc_unused w2) as Hn. fold l2 in Hn. congruence.
    + apply lookup_insert_eq.
    + intros l' Hl'. rewrite <- (Hf1 l' Hl').
      apply (updated_frame w2 l2 l' e); [apply fresh_loc_unused |].
      rewrite Hf1; exact Hl'.
Qed.

(** C10: [get_copy] on a constructed game returns a game with the
    configuration of the source: the same [(mu, sigma)] for a continuous
    game, the same macro-action table for a macro-action game, the same
    repetition count for a multiple-steps game, and the same
    [(num_actions, action_damping, max_macro_action_len)] for an
    engineered-macro-action game. *)
Theorem get_copy_keeps_configuration (g : Game) (w : World) :
  constructed w g = true →
  ∃ c w', get_copy g w = (w', inr c) ∧ config c = config g.
Proof.
  intros Hc. pose proof Hc as Hc'. unfold constructed in Hc'.
  destruct (heap w !! env g) as [e |] eqn:He; [| discriminate].
  destruct (get_copy_spec g w e He Hc) as (c & w' & Hrun & Hcfg & _).
  exists c, w'. split; assumption.
Qed.

(** ** Seeding and sampling *)

Lemma run_set_seed (g : Game) (s : Z) (w : World) (e : env_obj) :
  heap w !! env g = Some e → gen_seed_ok s = true →
  set_seed g s w =
  (reseeded (updated w (env g) (env_reseeded e s)) s, inr (assign_seed g s)).
Proof.
  intros He Hs. unfold set_seed, GymGame_set_seed.
  run_ok (run_deref _ _ _ He). rewrite run_bind. cbn [store].
  unfold DeepCopyableGame_set_seed.
  run_ok (run_seed s (updated w (env g) (env_reseeded e s)) Hs). reflexivity.
Qed.

Lemma env_assign_seed (g : Game) (s : Z) : env (assign_seed g s) = env g.
Proof. destruct g; reflexivity. Qed.

Lemma get_seed_assign_seed (g : Game) (s : Z) : get_seed (assign_seed g s) = s.
Proof. destruct g; reflexivity. Qed.

Lemma samplable_assign_seed (g : Game) (s : Z) (sp : Space) :
  samplable (assign_seed g s) sp = samplable g sp.
Proof. destruct g; reflexivity. Qed.

Lemma sample_value_assign_seed (g : Game) (s : Z) (sp : Space)
    (st : RandomState) :
  sample_value (assign_seed g s) sp st = sample_value g sp st.
Proof. destruct g; reflexivity. Qed.

Lemma py_range_length (k : Z) : 0 ≤ k → Z.of_nat (length (py_range k)) = k.
Proof.
  intros H. unfold py_range. rewrite length_fmap, length_seq. lia.
Qed.

Lemma py_index_range (k v : Z) :
  0 ≤ v < k → py_index (py_range k) v = inr v.
Proof.
  intros Hv. unfold py_index. rewrite py_range_length by lia.
  assert (Hneg : (v <? 0) = false) by (apply Z.ltb_ge; lia).
  assert (Hle : (k <=? v) = false) by (apply Z.leb_gt; lia).
  rewrite Hneg, Hneg, Hle. cbn [orb].
  unfold py_range. rewrite list_lookup_fmap.
  rewrite (lookup_seq_lt 0 (Z.to_nat k) (Z.to_nat v)) by lia.
  cbn [fmap option_fmap option_map]. f_equal. lia.
Qed.

Section Sampling.
Context {L : GeneratorLaws R}.

Lemma run_discrete_sample_action
    (legal : Game → bool → M (list Z)) (g : Game) (w : World) (k : Z) :
  legal g false w = (w, inr (py_range k)) → 1 ≤ k →
  DiscreteGymGame_sample_action_with legal g false w =
  (drew w (RandomIntegers 0 (k - 1)),
   inr (gen_random_integers (np_random w) 0 (k - 1))).
Proof.
  intros Hlegal Hk. unfold DiscreteGymGame_sample_action_with.
  run_ok Hlegal. rewrite py_range_length by lia.
  run_ok (run_random_integers 0 (k - 1) w ltac:(lia)).
  pose proof (gen_random_integers_range (np_random w) 0 (k - 1) ltac:(lia)).
  rewrite py_index_range by lia. reflexivity.
Qed.

(** [sample_action] draws once from the generator of the world, whatever the
    instance. *)
Lemma run_sample_action (g : Game) (w : World) (e : env_obj) :
  heap w !! env g = Some e → samplable g (action_space e) = true →
  ∃ d, sample_action g false w =
       (drew w d, inr (sample_value g (action_space e) (np_random w))).
Proof.
  intros He Hs.
  assert (Hdisc : ∀ k, action_space e = Discrete k →
            DiscreteGymGame_legal_actions g w = (w, inr (py_range k))
            ∧ GymGameWithMacroActions_legal_actions g false w
              = (w, inr (py_range k))).
  { intros k Hk. split.
    - unfold DiscreteGymGame_legal_actions.
      run_ok (run_action_space_n _ _ _ _ He Hk). reflexivity.
    - unfold GymGameWithMacroActions_legal_actions,
        GymGameWithMacroActions_legal_actions_with.
      run_ok (run_action_space_n _ _ _ _ He Hk). reflexivity. }
  destruct g as [l s | l mu sigma s | l s t | l s n t | l k0 d cap s];
    cbn [sample_action]; unfold samplable in Hs; unfold sample_value;
    destruct (action_space e) as [k | low high] eqn:Hsp; try discriminate.
  2: { destruct low as [| l0 low]; [discriminate |].
       destruct high as [| h0 high]; [discriminate |].
       exists (Normal mu sigma).
       run_ok (run_continuous_sample_action _ mu sigma w e l0 h0 low high
                 He Hsp Hs).
       reflexivity. }
  all: apply Z.leb_le in Hs; destruct (Hdisc k eq_refl) as [Hd Hm];
    exists (RandomIntegers 0 (k - 1)).
  - run_ok (run_discrete_sample_action
              (λ g _, DiscreteGymGame_legal_actions g) _ w k Hd Hs).
    reflexivity.
  - run_ok (run_discrete_sample_action _ _ w k Hm Hs). reflexivity.
  - run_ok (run_discrete_sample_action _ _ w k Hm Hs). reflexivity.
  - run_ok (run_discrete_sample_action _ _ w k Hm Hs). reflexivity.
Qed.

(** C5: on a game that has something to sample from, with a seed the
    generator accepts, [g.set_seed(s); o1 = g.sample_action();
    g.set_seed(s); o2 = g.sample_action()] returns, and [o1 == o2]. *)
Theorem seeding_reproduces_sample (g : Game) (s : Z) (w : World) :
  can_sample w g = true → gen_seed_ok s = true →
  ∃ o w', seed_sample_twice g s w = (w', inr (o, o)).
Proof.
  intros Hc Hs. unfold can_sample in Hc.
  destruct (heap w !! env g) as [e |] eqn:He; [| discriminate].
  set (w1 := reseeded (updated w (env g) (env_reseeded e s)) s).
  set (g1 := assign_seed g s).
  assert (He1 : heap w1 !! env g1 = Some (env_reseeded e s)).
  { unfold g1. rewrite env_assign_seed. apply lookup_insert_eq. }
  assert (Hs1 : samplable g1 (action_space (env_reseeded e s)) = true).
  { unfold g1. rewrite samplable_assign_seed. exact Hc. }
  destruct (run_sample_action g1 w1 _ He1 Hs1) as [d Hsample].
  set (w2 := drew w1 d) in Hsample.
  assert (He2 : heap w2 !! env g1 = Some (env_reseeded e s)) by exact He1.
  set (e2 := env_reseeded (env_reseeded e s) s).
  set (w3 := reseeded (updated w2 (env g1) e2) s).
  set (g3 := assign_seed g1 s).
  assert (He3 : heap w3 !! env g3 = Some e2).
  { unfold g3. rewrite env_assign_seed. apply lookup_insert_eq. }
  assert (Hs3 : samplable g3 (action_space e2) = true).
  { unfold g3. rewrite samplable_assign_seed. exact Hs1. }
  destruct (run_sample_action g3 w3 _ He3 Hs3) as [d' Hsample'].
  exists (sample_value g (action_space e)
            {| seeded_with := Some s; drawn := [] |}).
  exists (drew w3 d').
  unfold seed_sample_twice.
  run_ok (run_set_seed g s w e He Hs). fold g1 w1.
  run_ok Hsample.
  run_ok (run_set_seed g1 s w2 _ He2 Hs). fold e2 g3 w3.
  run_ok Hsample'.
  unfold g3, g1. rewrite !sample_value_assign_seed. reflexivity.
Qed.

End Sampling.

(** C7 (as amended): [set_seed(s)] with a seed the generator accepts both
    reseeds the generator with [s] and stores [s]: when it returns,
    [get_seed()] is [s], the generator is freshly seeded with [s], and the
    two agree. *)
Theorem set_seed_reseeds_and_stores (g : Game) (s : Z) (w : World) :
  is_Some (heap w !! env g) → gen_seed_ok s = true →
  ∃ g' w',
    set_seed g s w = (w', inr g')
    ∧ get_seed g' = s
    ∧ np_random w' = {| seeded_with := Some s; drawn := [] |}
    ∧ seed_agrees w' g'.
Proof.
  intros [e He] Hs. eexists _, _. split; [apply (run_set_seed g s w e He Hs) |].
  unfold seed_agrees. rewrite get_seed_assign_seed. repeat split.
Qed.

(** ** Independence of a copy *)

Lemma runs_to_pure {A} (g : Game) (m : M A) (e : env_obj) (r : exn + A) :
  (∀ w, heap w !! env g = Some e → m w = (w, r)) → runs_to g m e r e.
Proof. intros H w He. exists w. rewrite (H w He). auto. Qed.

Lemma runs_to_update {A} (g : Game) (m : M A) (e e' : env_obj)
    (r : exn + A) :
  (∀ w, heap w !! env g = Some e → m w = (updated w (env g) e', r)) →
  runs_to g m e r e'.
Proof.
  intros H w He. exists (updated w (env g) e'). rewrite (H w He).
  split; [reflexivity |]. split; [apply lookup_insert_eq |].
  intros l Hl _. apply lookup_insert_ne. congruence.
Qed.

Lemma runs_to_raise {A B} (g : Game) (m : M A) (k : A → M B)
    (e e' : env_obj) (err : exn) :
  runs_to g m e (inl err) e' → runs_to g (m ≫= k) e (inl err) e'.
Proof.
  intros H w He. destruct (H w He) as (w' & Hrun & Hrest).
  exists w'. run_raise Hrun. auto.
Qed.

Lemma runs_to_bind {A B} (g : Game) (m : M A) (k : A → M B)
    (e e1 e2 : env_obj) (x : A) (r : exn + B) :
  runs_to g m e (inr x) e1 → runs_to g (k x) e1 r e2 →
  runs_to g (m ≫= k) e r e2.
Proof.
  intros Hm Hk w He. destruct (Hm w He) as (w1 & Hrun & He1 & Hf1).
  destruct (Hk w1 He1) as (w2 & Hrun2 & He2 & Hf2).
  exists w2. run_ok Hrun. split; [exact Hrun2 |]. split; [exact He2 |].
  intros l Hl Hlive. rewrite Hf2, Hf1; auto. rewrite Hf1; auto.
Qed.

Lemma py_range_positive (k : Z) : 1 ≤ k → ∃ rest, py_range k = 0 :: rest.
Proof.
  intros H. unfold py_range.
  destruct (Z.to_nat k) as [| n] eqn:Hn; [lia |]. eexists; reflexivity.
Qed.

(** In the discovery of a Pendulum game, the copy is stepped once and the
    unpacking of what its [step] returned fails: nothing the game owns is
    touched. *)
Lemma discover_runs_to (l : loc) (k : Z) (d : Q) (cap s : Z) (action : Z)
    (e : env_obj) (k' : Z) :
  action_space e = Discrete k' →
  runs_to (PendulumGame l k d cap s)
    (discover get_copy (evaluation_branch DiscreteGymGame_step) cap
       (PendulumGame l k d cap s) action)
    e (inl ValueError) e.
Proof.
  intros Hsp w He. set (g := PendulumGame l k d cap s) in *.
  assert (Hc : constructed w g = true).
  { unfold constructed. rewrite He, Hsp. reflexivity. }
  destruct (get_copy_spec g w e He Hc)
    as (c & w1 & Hcopy & _ & _ & Hnew & Hec & Hframe & _).
  exists (updated w1 (env c) (stepped e (Index (py_int (PyInt action))))).
  split; [| split].
  - unfold discover. run_ok Hcopy.
    run_raise (run_evaluation_branch c (PyInt action) w1 e Hec). reflexivity.
  - cbn [heap updated]. rewrite lookup_insert_ne.
    + rewrite Hframe; eauto.
    + intros Heq. rewrite Heq in Hnew. congruence.
  - intros l' _ Hlive. cbn [heap updated]. rewrite lookup_insert_ne.
    + apply Hframe. exact Hlive.
    + intros Heq. rewrite Heq in Hnew. destruct Hlive as [x Hx]. congruence.
Qed.

Lemma run_action_space_n_box (l : loc) (w : World) (e : env_obj)
    (low high : list Q) :
  heap w !! l = Some e → action_space e = Box low high →
  action_space_n l w = (w, inl AttributeError).
Proof.
  intros H Hn. unfold action_space_n. run_ok (run_deref _ _ _ H).
  rewrite Hn. reflexivity.
Qed.

(** [legal_actions(simulation=False)] of the macro-action classes. *)
Lemma run_macro_legal_actions_evaluation
    (table_of : Game → M (list (list Q))) (g : Game) (w : World)
    (e : env_obj) :
  heap w !! env g = Some e →
  GymGameWithMacroActions_legal_actions_with table_of g false w =
  (w, match action_space e with
      | Discrete k => inr (py_range k)
      | Box _ _ => inl AttributeError
      end).
Proof.
  intros He. unfold GymGameWithMacroActions_legal_actions_with.
  destruct (action_space e) as [k | low high] eqn:Hsp.
  - run_ok (run_action_space_n _ _ _ _ He Hsp). reflexivity.
  - run_raise (run_action_space_n_box _ _ _ _ _ He Hsp). reflexivity.
Qed.

Lemma pendulum_macro_actions_runs_to (l : loc) (k : Z) (d : Q) (cap s : Z)
    (e : env_obj) :
  runs_to (PendulumGame l k d cap s)
    (macro_actions (PendulumGame l k d cap s)) e
    (discovered (action_space e)) e.
Proof.
  cbn [macro_actions].
  unfold PendulumGameWithEngineeredMacroActions_macro_actions_with, discovered.
  set (g := PendulumGame l k d cap s).
  destruct (action_space e) as [k' | low high] eqn:Hsp.
  - apply runs_to_bind with (x := py_range k') (e1 := e).
    + apply runs_to_pure. intros w He.
      rewrite (run_macro_legal_actions_evaluation _ g w e He), Hsp.
      reflexivity.
    + destruct (Z.leb_spec k' 0) as [Hk | Hk].
      * rewrite py_range_nonpositive by exact Hk. apply runs_to_pure.
        reflexivity.
      * destruct (py_range_positive k' ltac:(lia)) as [rest ->].
        cbn [discover_all]. apply runs_to_raise.
        apply discover_runs_to with k'. exact Hsp.
  - apply runs_to_raise. apply runs_to_pure. intros w He.
    rewrite (run_macro_legal_actions_evaluation _ g w e He), Hsp.
    reflexivity.
Qed.

(** Above [DiscreteGymGame.step] the loop stops in its first iteration: the
    environment is stepped once, then unpacking three values into four
    targets fails. *)
Lemma run_traverse_raises (g : Game) (p : Q) (rest : list Q) (reward : Q)
    (seen : option (list Q * bool)) (w : World) (e : env_obj) :
  heap w !! env g = Some e →
  traverse DiscreteGymGame_step g (p :: rest) reward seen w =
  (updated w (env g) (stepped e (Index (py_int (PyFloat p)))),
   inl ValueError).
Proof.
  intros He. cbn [traverse].
  run_ok (run_DiscreteGymGame_step g (PyFloat p) w e He).
  destruct (observed_triple e (Index (py_int (PyFloat p))))
    as (obs & rew & done & ->).
  reflexivity.
Qed.

(** As the repository binds it, [step(i, simulation=True)] on a non-empty
    macro-action of a stored table steps the environment with the first
    primitive and raises [ValueError]: no reward is returned and the rest
    of the macro-action is not applied. *)
Lemma run_stored_simulation_raises (g : Game) (i : Z) (p : Q)
    (rest : list Q) (w : World) (e : env_obj) :
  has_stored_table g = true →
  py_index (stored_table g) i = inr (p :: rest) →
  heap w !! env g = Some e →
  step g (PyInt i) true w
  = (updated w (env g) (stepped e (Index (py_int (PyFloat p)))),
     inl ValueError).
Proof.
  intros Hg Hi He.
  assert (Hstep : step g (PyInt i) true w
                  = simulation_branch DiscreteGymGame_step
                      (λ g, mret (stored_table g)) g (PyInt i) w)
    by (destruct g; try discriminate Hg; reflexivity).
  rewrite Hstep. unfold simulation_branch. rewrite run_bind.
  cbn [mret M_ret]. rewrite Hi. rewrite run_bind. cbn [lift].
  run_raise (run_traverse_raises g p rest 0%Q None w e He). reflexivity.
Qed.

(** The simulation branch above [DiscreteGymGame.step], once the table is
    known. *)
Lemma simulation_tail_runs_to (table_of : Game → M (list (list Q)))
    (g : Game) (a : number) (e e1 : env_obj) (table : list (list Q)) :
  runs_to g (table_of g) e (inr table) e1 →
  ∃ r e', runs_to g (simulation_branch DiscreteGymGame_step table_of g a)
            e r e'.
Proof.
  intros Htable. unfold simulation_branch.
  destruct a as [i | q].
  2: { exists (inl TypeError), e1. eapply runs_to_bind; [exact Htable |].
       apply runs_to_pure. reflexivity. }
  destruct (py_index table i) as [err | mac_act] eqn:Hindex.
  { exists (inl err), e1. eapply runs_to_bind; [exact Htable |].
    rewrite Hindex. apply runs_to_pure. reflexivity. }
  destruct mac_act as [| p rest].
  { exists (inl ZeroDivisionError), e1. eapply runs_to_bind; [exact Htable |].
    rewrite Hindex. apply runs_to_pure. reflexivity. }
  exists (inl ValueError), (stepped e1 (Index (py_int (PyFloat p)))).
  eapply runs_to_bind; [exact Htable |]. rewrite Hindex.
  apply runs_to_update. intros w He.
  rewrite run_bind. cbn [lift].
  run_raise (run_traverse_raises g p rest 0%Q None w e1 He). reflexivity.
Qed.

Lemma step_runs_to (g : Game) (a : number) (sim : bool) (e : env_obj) :
  ∃ r e', runs_to g (step g a sim) e r e'.
Proof.
  assert (Hev : ∃ r e',
            runs_to g (evaluation_branch DiscreteGymGame_step g a) e r e').
  { eexists _, _. apply runs_to_update. intros w He.
    apply (run_evaluation_branch g a w e He). }
  destruct g as [l s | l mu sigma s | l s t | l s n t | l k d cap s];
    cbn [step].
  - eexists _, _. apply runs_to_update. intros w He.
    apply (run_DiscreteGymGame_step _ a w e He).
  - eexists _, _. apply runs_to_update. intros w He.
    apply (run_GymGame_step _ (Vector [py_float a]) w e He).
  - destruct sim; [| exact Hev].
    apply simulation_tail_runs_to with (e1 := e) (table := t).
    apply runs_to_pure. reflexivity.
  - destruct sim; [| exact Hev].
    apply simulation_tail_runs_to with (e1 := e) (table := t).
    apply runs_to_pure. reflexivity.
  - destruct sim; [| exact Hev].
    pose proof (pendulum_macro_actions_runs_to l k d cap s e) as Hm.
    destruct (discovered (action_space e)) as [err | table] eqn:Hd.
    + exists (inl err), e. apply runs_to_raise. exact Hm.
    + apply simulation_tail_runs_to with (e1 := e) (table := table).
      exact Hm.
Qed.

Lemma runs_to_map {A B} (g : Game) (m : M A) (f : A → B) (e e' : env_obj)
    (r : exn + A) :
  runs_to g m e r e' → ∃ r', runs_to g (x ← m; mret (f x)) e r' e'.
Proof.
  destruct r as [err | x]; intros Hm.
  - exists (inl err). apply runs_to_raise. exact Hm.
  - exists (inr (f x)). eapply runs_to_bind; [exact Hm |].
    apply runs_to_pure. reflexivity.
Qed.

Lemma action_space_n_runs_to (g : Game) (e : env_obj) :
  ∃ r, runs_to g (action_space_n (env g)) e r e.
Proof.
  destruct (action_space e) as [k | low high] eqn:Hsp; eexists;
    apply runs_to_pure; intros w He.
  - apply (run_action_space_n _ w e k He Hsp).
  - apply (run_action_space_n_box _ w e low high He Hsp).
Qed.

Lemma macro_legal_actions_runs_to (g : Game) (sim : bool) (e e' : env_obj)
    (r : exn + list (list Q)) :
  runs_to g (macro_actions g) e r e' →
  ∃ r' e'', runs_to g (GymGameWithMacroActions_legal_actions g sim) e r' e''.
Proof.
  intros Hm.
  unfold GymGameWithMacroActions_legal_actions,
    GymGameWithMacroActions_legal_actions_with.
  destruct sim.
  - destruct (runs_to_map g _ (λ table, py_range (Z.of_nat (length table)))
                _ _ _ Hm) as [r' Hr'].
    exists r', e'. exact Hr'.
  - destruct (action_space_n_runs_to g e) as [rn Hn].
    destruct (runs_to_map g _ py_range _ _ _ Hn) as [r' Hr'].
    exists r', e. exact Hr'.
Qed.

Lemma legal_actions_runs_to (g : Game) (sim : bool) (e : env_obj) :
  ∃ r e', runs_to g (legal_actions g sim) e r e'.
Proof.
  assert (Hmacro : ∀ r e', runs_to g (macro_actions g) e r e' →
            ∃ r' e'', runs_to g
                        (l ← GymGameWithMacroActions_legal_actions g sim;
                         mret (Indices l)) e r' e'').
  { intros r e' Hm.
    destruct (macro_legal_actions_runs_to g sim e e' r Hm) as (r1 & e1 & H1).
    destruct (runs_to_map g _ Indices _ _ _ H1) as [r2 H2]. eauto. }
  destruct g as [l s | l mu sigma s | l s t | l s n t | l k d cap s];
    cbn [legal_actions].
  - unfold DiscreteGymGame_legal_actions.
    destruct (action_space_n_runs_to (DiscreteGame l s) e) as [rn Hn].
    destruct (runs_to_map _ _ py_range _ _ _ Hn) as [r1 H1].
    destruct (runs_to_map _ _ Indices _ _ _ H1) as [r2 H2]. eauto.
  - assert (Hb : ∃ r, runs_to (ContinuousGame l mu sigma s)
                        (ContinuousGymGame_legal_actions
                           (ContinuousGame l mu sigma s)) e r e).
    { unfold ContinuousGymGame_legal_actions.
      destruct (action_space e) as [k | low high] eqn:Hsp; eexists;
        apply runs_to_pure; intros w He;
        run_ok (run_deref _ w e He); rewrite Hsp; reflexivity. }
    destruct Hb as [rb Hb].
    destruct (runs_to_map _ _ (λ b, Bounds b.1 b.2) _ _ _ Hb) as [r2 H2].
    eauto.
  - apply (Hmacro (inr t) e). apply runs_to_pure. reflexivity.
  - apply (Hmacro (inr t) e). apply runs_to_pure. reflexivity.
  - apply (Hmacro (discovered (action_space e)) e).
    apply pendulum_macro_actions_runs_to.
Qed.

Lemma perform_runs_to (g : Game) (c : call) (e : env_obj) :
  ∃ r e', runs_to g (perform g c) e r e'.
Proof.
  destruct c as [a sim | sim]; cbn [perform].
  - destruct (step_runs_to g a sim e) as (r & e' & H).
    destruct (runs_to_map g _ Stepped _ _ _ H) as [r' H']. eauto.
  - destruct (legal_actions_runs_to g sim e) as (r & e' & H).
    destruct (runs_to_map g _ Legal _ _ _ H) as [r' H']. eauto.
Qed.

(** The results of a sequence of calls on a game are determined by the value
    of its environment object. *)
Lemma results_determined (g : Game) (calls : list call) :
  ∀ e, ∃ rs, ∀ w, heap w !! env g = Some e → results g calls w = rs.
Proof.
  induction calls as [| c rest IH]; intros e.
  - exists []. reflexivity.
  - destruct (perform_runs_to g c e) as (r & e' & Hrun).
    destruct (IH e') as [rs Hrs].
    exists (r :: rs). intros w He.
    destruct (Hrun w He) as (w' & Hperform & He' & _).
    cbn [results]. rewrite Hperform. f_equal. apply Hrs. exact He'.
Qed.

(** C2: on a constructed game [g], [c = g.get_copy()] returns; whatever
    action and mode [c.step] is then called with, every later sequence of
    [step] and [legal_actions] calls on [g] has the results it has when no
    copy was ever made. *)
Theorem copy_independence (g : Game) (w : World) :
  constructed w g = true →
  ∃ c w1,
    get_copy g w = (w1, inr c)
    ∧ ∀ (a : number) (sim : bool) (calls : list call),
        results g calls (step c a sim w1).1 = results g calls w.
Proof.
  intros Hc. pose proof Hc as Hc'. unfold constructed in Hc'.
  destruct (heap w !! env g) as [e |] eqn:He; [| discriminate].
  destruct (get_copy_spec g w e He Hc)
    as (c & w1 & Hcopy & _ & _ & Hnew & Hec & Hframe & _).
  exists c, w1. split; [exact Hcopy |]. intros a sim calls.
  destruct (step_runs_to c a sim e) as (r & e' & Hstep).
  destruct (Hstep w1 Hec) as (w2 & Hrun & _ & Hframe2).
  rewrite Hrun. cbn [fst].
  assert (Hne : env g ≠ env c) by (intros Heq; rewrite Heq in He; congruence).
  assert (He1 : heap w1 !! env g = Some e) by (rewrite Hframe; eauto).
  assert (He2 : heap w2 !! env g = Some e) by (rewrite Hframe2; eauto).
  destruct (results_determined g calls e) as [rs Hrs].
  rewrite (Hrs w2 He2), (Hrs w He). reflexivity.
Qed.

(** ** The discovery loop *)

Section DiscoveryLoop.
Variable self_get_copy : Game → M Game.
Variable copy_step : Game → number → M step_result.
Variable cap : Z.

(** The loop terminates within its fuel: any two amounts of fuel of at least
    [cap + 1 - it] give the same run. *)
Lemma repeat_action_fuel (fuel fuel' : nat) :
  ∀ (c : Game) (action sign : Z) (theta_dot : Q) (it : Z) (done : bool)
    (w : World),
  cap + 1 - it ≤ Z.of_nat fuel → cap + 1 - it ≤ Z.of_nat fuel' →
  repeat_action copy_step cap fuel c action sign theta_dot it done w
  = repeat_action copy_step cap fuel' c action sign theta_dot it done w.
Proof.
  revert fuel'. induction fuel as [| fuel IH];
    intros [| fuel'] c action sign theta_dot it done w Hf Hf';
    cbn [repeat_action];
    destruct ((sign =? numpy_sign theta_dot) && (it <=? cap) && negb done)
      eqn:Hguard; try reflexivity;
    apply andb_prop in Hguard as [Hguard _];
    apply andb_prop in Hguard as [_ Hle]; apply Z.leb_le in Hle; try lia.
  rewrite !run_bind.
  destruct (copy_step c (PyInt action) w) as [w1 [err | t]]; [reflexivity |].
  cbn [lift]. destruct (unpack3 t) as [err | [[obs rew] done']];
    [reflexivity |].
  rewrite !run_bind. cbn [lift].
  destruct (unpack_obs obs) as [err | [[c0 s0] theta_dot']]; [reflexivity |].
  apply IH; lia.
Qed.

(** When the loop returns, it has counted at most one repetition beyond the
    cap. *)
Lemma repeat_action_bound (fuel : nat) :
  ∀ (c : Game) (action sign : Z) (theta_dot : Q) (it : Z) (done : bool)
    (w w' : World) (n : Z),
  repeat_action copy_step cap fuel c action sign theta_dot it done w
  = (w', inr n) →
  it ≤ n ≤ Z.max it (cap + 1).
Proof.
  induction fuel as [| fuel IH];
    intros c action sign theta_dot it done w w' n; cbn [repeat_action];
    destruct ((sign =? numpy_sign theta_dot) && (it <=? cap) && negb done)
      eqn:Hguard;
    try (intros [= _ <-]; lia).
  apply andb_prop in Hguard as [Hguard _].
  apply andb_prop in Hguard as [_ Hle]. apply Z.leb_le in Hle.
  rewrite run_bind.
  destruct (copy_step c (PyInt action) w) as [w1 [err | t]]; [discriminate |].
  rewrite run_bind. cbn [lift].
  destruct (unpack3 t) as [err | [[obs rew] done']]; [discriminate |].
  rewrite run_bind. cbn [lift].
  destruct (unpack_obs obs) as [err | [[c0 s0] theta_dot']]; [discriminate |].
  intros H. apply IH in H. lia.
Qed.

(** A discovered macro-action has at least one primitive and at most
    [cap + 1]. *)
Lemma discover_length (g : Game) (action : Z) (w w' : World) (m : list Q) :
  discover self_get_copy copy_step cap g action w = (w', inr m) →
  1 ≤ Z.of_nat (length m) ≤ Z.max 1 (cap + 1).
Proof.
  unfold discover. rewrite run_bind.
  destruct (self_get_copy g w) as [w1 [err | c]]; [discriminate |].
  rewrite run_bind.
  destruct (copy_step c (PyInt action) w1) as [w2 [err | t]]; [discriminate |].
  rewrite run_bind. cbn [lift].
  destruct (unpack3 t) as [err | [[obs rew] done]]; [discriminate |].
  rewrite run_bind. cbn [lift].
  destruct (unpack_obs obs) as [err | [[c0 s0] theta_dot]]; [discriminate |].
  rewrite run_bind.
  destruct (repeat_action copy_step cap (Z.to_nat cap) c action
              (numpy_sign theta_dot) theta_dot 1 done w2)
    as [w3 [err | it]] eqn:Hloop; [discriminate |].
  apply repeat_action_bound in Hloop.
  unfold lift, numpy_ones_times.
  destruct (Z.ltb_spec it 0); [lia |].
  intros [= _ <-]. rewrite length_replicate. lia.
Qed.

End DiscoveryLoop.

(** * Further properties *)

(** ** Legal actions *)

Lemma py_range_elem (n i : Z) : i ∈ py_range n ↔ 0 ≤ i < n.
Proof.
  unfold py_range. rewrite list_elem_of_fmap. split.
  - intros (k & -> & Hk). apply elem_of_seq in Hk. lia.
  - intros Hi. exists (Z.to_nat i). split; [lia |].
    apply elem_of_seq. lia.
Qed.

Lemma py_range_NoDup (n : Z) : NoDup (py_range n).
Proof.
  unfold py_range. apply NoDup_fmap_2; [| apply NoDup_seq].
  intros x y Hxy. lia.
Qed.

Lemma py_range_length_max (n : Z) :
  Z.of_nat (length (py_range n)) = Z.max 0 n.
Proof. unfold py_range. rewrite length_fmap, length_seq. lia. Qed.

(** X1: on a discrete space of [n] actions, [legal_actions(simulation=False)]
    of every class but the continuous one returns, without changing
    anything, the indices from 0 to [n - 1]: each once, and no other. *)
Theorem legal_actions_enumerates (g : Game) (w : World) (e : env_obj)
    (n : Z) :
  is_continuous g = false →
  heap w !! env g = Some e → action_space e = Discrete n →
  ∃ l, legal_actions g false w = (w, inr (Indices l))
       ∧ NoDup l
       ∧ Z.of_nat (length l) = Z.max 0 n
       ∧ ∀ i, i ∈ l ↔ 0 ≤ i < n.
Proof.
  intros Hg He Hn. exists (py_range n).
  split; [| auto using py_range_NoDup, py_range_length_max, py_range_elem].
  assert (Hm : GymGameWithMacroActions_legal_actions g false w
               = (w, inr (py_range n))).
  { unfold GymGameWithMacroActions_legal_actions.
    rewrite (run_macro_legal_actions_evaluation _ g w e He), Hn.
    reflexivity. }
  destruct g; try discriminate Hg; cbn [legal_actions]; run_ok Hm;
    reflexivity.
Qed.

(** ** One primitive step *)

(** X2: on a discrete or a continuous game, [step] in either mode calls
    [env.step] exactly once on the game's own environment object, with
    [int(action)] or [[action]], and returns the observation and reward of
    that call with done the disjunction of terminated and truncated. *)
Theorem step_executes_one_primitive (g : Game) (a : number) (sim : bool)
    (w : World) (e : env_obj) :
  is_macro g = false →
  heap w !! env g = Some e →
  ∃ s' obs rew terminated truncated,
    env_step (state e) (primitive g a)
    = (s', (obs, rew, terminated, truncated))
    ∧ step g a sim w
      = (updated w (env g) (with_state e s'),
         inr (Triple obs rew (terminated || truncated))).
Proof.
  intros Hg He.
  destruct (env_step (state e) (primitive g a))
    as [s' [[[obs rew] terminated] truncated]] eqn:Hstep.
  exists s', obs, rew, terminated, truncated. split; [reflexivity |].
  destruct g; try discriminate Hg; cbn [step primitive] in *.
  - rewrite (run_DiscreteGymGame_step _ a w e He).
    unfold stepped, observed. rewrite Hstep. reflexivity.
  - unfold ContinuousGymGame_step.
    rewrite (run_GymGame_step _ (Vector [py_float a]) w e He).
    unfold stepped, observed. rewrite Hstep. reflexivity.
Qed.

(** ** Sampling *)

Lemma sample_action_discrete (g : Game) (sim : bool) :
  is_continuous g = false →
  sample_action g sim
  = (a ← DiscreteGymGame_sample_action_with (discrete_legal_actions g) g sim;
     mret (PyInt a)).
Proof. destruct g; intros H; try discriminate H; reflexivity. Qed.

(** The indices [legal_actions] returns are those its class computes, and
    they are a range. *)
Lemma legal_actions_indices (g : Game) (sim : bool) (w w' : World)
    (l : list Z) :
  is_continuous g = false →
  legal_actions g sim w = (w', inr (Indices l)) →
  discrete_legal_actions g g sim w = (w', inr l) ∧ ∃ k, l = py_range k.
Proof.
  intros Hg.
  assert (Hrange : ∀ (m : M (list Z)) w w' l,
            (m = (n ← action_space_n (env g); mret (py_range n))
             ∨ m = (table ← macro_actions g;
                    mret (py_range (Z.of_nat (length table))))) →
            m w = (w', inr l) → ∃ k, l = py_range k).
  { intros m w0 w1 l0 [-> | ->]; rewrite run_bind.
    - destruct (action_space_n (env g) w0) as [w2 [err | n]];
        [discriminate |]. intros [= _ <-]. eauto.
    - destruct (macro_actions g w0) as [w2 [err | t]];
        [discriminate |]. intros [= _ <-]. eauto. }
  assert (Hmacro : ∀ w w' l,
            GymGameWithMacroActions_legal_actions g sim w = (w', inr l) →
            ∃ k, l = py_range k).
  { intros w0 w1 l0. apply Hrange.
    unfold GymGameWithMacroActions_legal_actions,
      GymGameWithMacroActions_legal_actions_with.
    destruct sim; auto. }
  destruct g; try discriminate Hg; cbn [legal_actions discrete_legal_actions];
    rewrite run_bind.
  - destruct (DiscreteGymGame_legal_actions _ w) as [w1 [err | l1]] eqn:Hl;
      [discriminate |].
    intros [= <- <-]. split; [reflexivity |].
    apply (Hrange _ w w1 l1 (or_introl eq_refl) Hl).
  - destruct (GymGameWithMacroActions_legal_actions _ sim w)
      as [w1 [err | l1]] eqn:Hl; [discriminate |].
    intros [= <- <-]. split; [reflexivity | apply (Hmacro _ _ _ Hl)].
  - destruct (GymGameWithMacroActions_legal_actions _ sim w)
      as [w1 [err | l1]] eqn:Hl; [discriminate |].
    intros [= <- <-]. split; [reflexivity | apply (Hmacro _ _ _ Hl)].
  - destruct (GymGameWithMacroActions_legal_actions _ sim w)
      as [w1 [err | l1]] eqn:Hl; [discriminate |].
    intros [= <- <-]. split; [reflexivity | apply (Hmacro _ _ _ Hl)].
Qed.

(** X3: when [legal_actions(simulation)] returns no action at all,
    [sample_action(simulation)] raises [ValueError] without drawing from the
    generator: [random_integers(0, -1)] is rejected. *)
Theorem sample_action_without_legal_actions (g : Game) (sim : bool)
    (w w' : World) :
  is_continuous g = false →
  legal_actions g sim w = (w', inr (Indices [])) →
  sample_action g sim w = (w', inl ValueError).
Proof.
  intros Hg Hl.
  destruct (legal_actions_indices g sim w w' [] Hg Hl) as [Hd _].
  rewrite (sample_action_discrete g sim Hg).
  unfold DiscreteGymGame_sample_action_with. rewrite run_bind.
  run_ok Hd. reflexivity.
Qed.

Section SamplingLegal.
Context {L : GeneratorLaws R}.

(** X4: when [legal_actions(simulation)] returns at least one action,
    [sample_action(simulation)] returns one of the actions it returned,
    after exactly one draw from the generator. *)
Theorem sample_action_is_legal (g : Game) (sim : bool) (w w' : World)
    (l : list Z) :
  is_continuous g = false →
  legal_actions g sim w = (w', inr (Indices l)) →
  l ≠ [] →
  ∃ a, sample_action g sim w
       = (drew w' (RandomIntegers 0 (Z.of_nat (length l) - 1)),
          inr (PyInt a))
       ∧ a ∈ l.
Proof.
  intros Hg Hl Hne.
  destruct (legal_actions_indices g sim w w' l Hg Hl) as [Hd [k ->]].
  assert (Hk : 1 ≤ k).
  { destruct (Z.leb_spec k 0) as [H0 | H0]; [| lia].
    rewrite py_range_nonpositive in Hne by exact H0. congruence. }
  rewrite py_range_length by lia.
  exists (gen_random_integers (np_random w') 0 (k - 1)).
  pose proof (gen_random_integers_range (np_random w') 0 (k - 1) ltac:(lia)).
  split; [| apply py_range_elem; lia].
  rewrite (sample_action_discrete g sim Hg).
  unfold DiscreteGymGame_sample_action_with. rewrite run_bind.
  run_ok Hd. rewrite py_range_length by lia.
  run_ok (run_random_integers 0 (k - 1) w' ltac:(lia)).
  rewrite py_index_range by lia. reflexivity.
Qed.

End SamplingLegal.

(** X5: [sample_action] of a continuous game returns the draw itself when
    it lies within the bounds, the lower bound when the draw is below it and
    the upper bound when the draw is above it; with bounds in the wrong order
    it returns the upper bound. *)
Theorem sample_action_clamps (g : Game) (mu sigma : Q) (w : World)
    (e : env_obj) (l0 h0 : Q) (low high : list Q) :
  heap w !! env g = Some e →
  action_space e = Box (l0 :: low) (h0 :: high) →
  Qle_bool 0 sigma = true →
  ∃ v, ContinuousGymGame_sample_action g mu sigma w
       = (drew w (Normal mu sigma), inr v)
       ∧ let a := gen_normal (np_random w) mu sigma in
         ((l0 <= a)%Q → (a <= h0)%Q → v = a)
         ∧ ((a < l0)%Q → (l0 <= h0)%Q → v = l0)
         ∧ ((l0 <= a)%Q → (h0 < a)%Q → v = h0)
         ∧ ((h0 < l0)%Q → v = h0).
Proof.
  intros He Hbox Hsigma.
  exists (clip1 (gen_normal (np_random w) mu sigma) l0 h0).
  split; [apply (run_continuous_sample_action _ _ _ _ _ _ _ _ _ He Hbox Hsigma) |].
  cbv zeta. set (a := gen_normal (np_random w) mu sigma). unfold clip1.
  assert (Hb : ∀ x y, Qle_bool x y = true ↔ (x <= y)%Q)
    by apply Qle_bool_iff.
  assert (Hn : ∀ x y, Qle_bool x y = false ↔ (y < x)%Q).
  { intros x y. split.
    - intros H. apply Qnot_le_lt. intros Hle. apply Hb in Hle. congruence.
    - intros H. destruct (Qle_bool x y) eqn:Hxy; [| reflexivity].
      apply Hb in Hxy. apply Qlt_not_le in H. contradiction. }
  repeat split.
  - intros H1 H2. apply Hb in H1, H2. rewrite H1, H2. reflexivity.
  - intros H1 H2. apply Hn in H1. apply Hb in H2. rewrite H1, H2.
    reflexivity.
  - intros H1 H2. apply Hb in H1. apply Hn in H2. rewrite H1, H2.
    reflexivity.
  - intros H. destruct (Qle_bool l0 a) eqn:H1.
    + apply Hb in H1.
      assert (H2 : Qle_bool a h0 = false).
      { apply Hn. eapply Qlt_le_trans; eassumption. }
      rewrite H2. reflexivity.
    + apply Hn in H. rewrite H. reflexivity.
Qed.

(** ** Seeds *)

(** X6: [set_seed] with a seed the generator rejects raises [ValueError]
    with the generator left as it was, but after the environment has been
    reseeded: [env.seed] is called first. *)
Theorem set_seed_rejected (g : Game) (s : Z) (w : World) (e : env_obj) :
  heap w !! env g = Some e → gen_seed_ok s = false →
  set_seed g s w = (updated w (env g) (env_reseeded e s), inl ValueError).
Proof.
  intros He Hs. unfold set_seed, GymGame_set_seed.
  run_ok (run_deref _ _ _ He). rewrite run_bind. cbn [store].
  unfold DeepCopyableGame_set_seed. rewrite run_bind.
  unfold numpy_random_seed. rewrite Hs. reflexivity.
Qed.

(** ** Draws *)

Lemma draws_bind {A B} (m : M A) (k : A → M B) (d1 d2 : list draw) :
  draws m d1 → (∀ x, draws (k x) d2) → draws (m ≫= k) (d1 ++ d2).
Proof.
  intros Hm Hk w w' y. rewrite run_bind.
  destruct (m w) as [w1 [err | x]] eqn:Hrun; [discriminate |].
  intros Hrun2. rewrite foldl_app, <- (Hm _ _ _ Hrun).
  apply (Hk x _ _ _ Hrun2).
Qed.

Lemma draws_pure {A} (m : M A) :
  (∀ w, np_random (m w).1 = np_random w) → draws m [].
Proof. intros H w w' x Hrun. specialize (H w). rewrite Hrun in H. exact H. Qed.

Lemma draws_deref (l : loc) : draws (deref l) [].
Proof. apply draws_pure. intros w. unfold deref. destruct (heap w !! l); reflexivity. Qed.

Lemma draws_alloc (e : env_obj) : draws (alloc e) [].
Proof. apply draws_pure. reflexivity. Qed.

Lemma draws_deepcopy (l : loc) : draws (deepcopy l) [].
Proof.
  apply (draws_bind _ _ [] []); [apply draws_deref |].
  intros e. apply draws_alloc.
Qed.

Lemma draws_init (l : loc) (s : Z) : draws (DiscreteGymGame_init l s) [].
Proof.
  apply (draws_bind _ _ [] []); [apply draws_deref |].
  intros e. apply draws_pure. intros w. destruct (action_space e); reflexivity.
Qed.

Lemma draws_lift {A} (r : exn + A) : draws (lift r) [].
Proof. apply draws_pure. reflexivity. Qed.

Lemma draws_ret {A} (x : A) : draws (mret x) [].
Proof. apply draws_pure. reflexivity. Qed.

Lemma draws_action_space_n (l : loc) : draws (action_space_n l) [].
Proof.
  apply (draws_bind _ _ [] []); [apply draws_deref |].
  intros e. apply draws_pure. intros w. destruct (action_space e); reflexivity.
Qed.

Lemma draws_randint :
  draws (numpy_random_randint 1000000000) [Randint 1000000000].
Proof. intros w w' x [= <- _]. reflexivity. Qed.

(** [get_copy] makes one draw: the seed of the copy. *)
Lemma get_copy_draws (g : Game) : draws (get_copy g) [Randint 1000000000].
Proof.
  destruct g as [l s | l mu sigma s | l s t | l s n t | l k d cap s];
    cbn [get_copy].
  - apply (draws_bind _ _ [] [_]); [apply draws_deepcopy |]. intros l1.
    apply (draws_bind _ _ [_] []); [apply draws_randint |]. intros s1.
    apply (draws_bind _ _ [] []); [apply draws_init |]. intros _.
    apply draws_ret.
  - apply (draws_bind _ _ [] [_]); [apply draws_deepcopy |]. intros l1.
    apply (draws_bind _ _ [_] []); [apply draws_randint |]. intros s1.
    apply draws_ret.
  - apply (draws_bind _ _ [] [_]); [apply draws_deepcopy |]. intros l1.
    apply (draws_bind _ _ [_] []); [apply draws_randint |]. intros s1.
    apply (draws_bind _ _ [] []); [apply draws_ret |]. intros t1.
    apply (draws_bind _ _ [] []); [apply draws_init |]. intros _.
    apply draws_ret.
  - apply (draws_bind _ _ [] [_]); [apply draws_deepcopy |]. intros l1.
    apply (draws_bind _ _ [_] []); [apply draws_randint |]. intros s1.
    apply (draws_bind _ _ [] []); [apply draws_action_space_n |]. intros k.
    apply (draws_bind _ _ [] []); [apply draws_lift |]. intros t1.
    apply (draws_bind _ _ [] []); [apply draws_init |]. intros _.
    apply draws_ret.
  - apply (draws_bind _ _ [_] []); [apply draws_randint |]. intros s1.
    apply (draws_bind _ _ [] []).
    + apply (draws_bind _ _ [] []); [apply draws_alloc |]. intros l1.
      apply (draws_bind _ _ [] []); [apply draws_init |]. intros _.
      apply draws_ret.
    + intros c. apply (draws_bind _ _ [] []); [apply draws_deepcopy |].
      intros l2. apply draws_ret.
Qed.

(** ** More on copies *)

(** X7: [get_copy] on a constructed game returns a game on an environment
    object that did not exist before and has the value of the source's
    environment; no object that existed is written. *)
Theorem get_copy_owns_new_environment (g : Game) (w : World) (e : env_obj) :
  heap w !! env g = Some e →
  constructed w g = true →
  ∃ c w1,
    get_copy g w = (w1, inr c)
    ∧ heap w !! env c = None
    ∧ heap w1 !! env c = Some e
    ∧ ∀ l, is_Some (heap w !! l) → heap w1 !! l = heap w !! l.
Proof.
  intros He Hc.
  destruct (get_copy_spec g w e He Hc)
    as (c & w1 & Hcopy & _ & _ & Hnew & Hec & Hframe & _).
  exists c, w1. auto.
Qed.

Section CopySeed.
Context {L : GeneratorLaws R}.

(** X8: the seed of a copy is one draw of the shared generator, a number
    from 0 to 10^9 - 1; making the copy advances the generator by exactly
    that draw and does not reseed it, so the seed the copy stores is not the
    seed of the generator it draws from. *)
Theorem get_copy_seed (g : Game) (w : World) :
  constructed w g = true →
  ∃ c w1,
    get_copy g w = (w1, inr c)
    ∧ get_seed c = gen_randint (np_random w) 1000000000
    ∧ 0 ≤ get_seed c < 1000000000
    ∧ np_random w1 = record_draw (np_random w) (Randint 1000000000).
Proof.
  intros Hc. pose proof Hc as Hc'. unfold constructed in Hc'.
  destruct (heap w !! env g) as [e |] eqn:He; [| discriminate].
  destruct (get_copy_spec g w e He Hc) as (c & w1 & Hcopy & _ & Hseed & _).
  exists c, w1. split; [exact Hcopy |]. split; [exact Hseed |].
  split; [rewrite Hseed; apply gen_randint_range; lia |].
  apply (get_copy_draws g w w1 c Hcopy).
Qed.

End CopySeed.

Lemma run_step_evaluation (g : Game) (a : number) (w : World) (e : env_obj) :
  heap w !! env g = Some e →
  (step g a false w).2 = evaluation_outcome (config g) e a.
Proof.
  intros He. destruct g; cbn [step config evaluation_outcome].
  - rewrite (run_DiscreteGymGame_step _ a w e He). reflexivity.
  - unfold ContinuousGymGame_step.
    rewrite (run_GymGame_step _ (Vector [py_float a]) w e He). reflexivity.
  - unfold GymGameWithMacroActions_step, GymGameWithMacroActions_step_with.
    rewrite (run_evaluation_branch _ a w e He). reflexivity.
  - unfold GymGameWithMacroActions_step, GymGameWithMacroActions_step_with.
    rewrite (run_evaluation_branch _ a w e He). reflexivity.
  - unfold GymGameWithMacroActions_step, GymGameWithMacroActions_step_with.
    rewrite (run_evaluation_branch _ a w e He). reflexivity.
Qed.

(** X9: a copy starts where its source is: for every action,
    [step(action, simulation=False)] on the copy has the outcome it has on
    the source. *)
Theorem copy_steps_like_source (g : Game) (w : World) :
  constructed w g = true →
  ∃ c w1,
    get_copy g w = (w1, inr c)
    ∧ ∀ a : number, (step c a false w1).2 = (step g a false w).2.
Proof.
  intros Hc. pose proof Hc as Hc'. unfold constructed in Hc'.
  destruct (heap w !! env g) as [e |] eqn:He; [| discriminate].
  destruct (get_copy_spec g w e He Hc)
    as (c & w1 & Hcopy & Hcfg & _ & _ & Hec & _).
  exists c, w1. split; [exact Hcopy |]. intros a.
  rewrite (run_step_evaluation c a w1 e Hec),
    (run_step_evaluation g a w e He), Hcfg.
  reflexivity.
Qed.

(** ** The table of a multiple-steps game *)

Lemma repeated_actions_spec (n : Z) (actions : list Z) :
  0 ≤ n →
  repeated_actions n actions
  = inr ((λ a, replicate (Z.to_nat n) (inject_Z a)) <$> actions).
Proof.
  intros Hn. induction actions as [| a rest IH]; [reflexivity |].
  cbn [repeated_actions]. unfold numpy_ones_times.
  destruct (Z.ltb_spec n 0); [lia |]. rewrite IH. reflexivity.
Qed.

Lemma run_multiple_steps_new (l : loc) (s n k : Z) (w : World)
    (e : env_obj) :
  heap w !! l = Some e → action_space e = Discrete k → 0 ≤ n →
  GymGameDoingMultipleStepsInSimulations_new l s n w
  = (w, inr (MultiStepGame l s n
               ((λ a, replicate (Z.to_nat n) (inject_Z a)) <$> py_range k))).
Proof.
  intros He Hk Hn. unfold GymGameDoingMultipleStepsInSimulations_new.
  run_ok (run_action_space_n l w e k He Hk).
  rewrite (repeated_actions_spec n _ Hn). rewrite run_bind. cbn [lift].
  run_ok (run_init l s w e k He Hk). reflexivity.
Qed.

(** X10: constructed on a discrete space of [k] actions with a repetition
    count [n >= 0], a multiple-steps game holds one macro-action per
    primitive action, in order: the macro-action of index [i] is [n] times
    the action [i]. *)
Theorem multiple_steps_table (l : loc) (s n k : Z) (w : World)
    (e : env_obj) :
  heap w !! l = Some e → action_space e = Discrete k → 0 ≤ n →
  ∃ t,
    GymGameDoingMultipleStepsInSimulations_new l s n w
    = (w, inr (MultiStepGame l s n t))
    ∧ Z.of_nat (length t) = Z.max 0 k
    ∧ ∀ i, 0 ≤ i < k →
        py_index t i = inr (replicate (Z.to_nat n) (inject_Z i)).
Proof.
  intros He Hk Hn. eexists. split; [apply (run_multiple_steps_new l s n k w e He Hk Hn) |].
  split; [rewrite length_fmap; apply py_range_length_max |].
  intros i Hi. unfold py_index. rewrite length_fmap, py_range_length by lia.
  assert (Hneg : (i <? 0) = false) by (apply Z.ltb_ge; lia).
  assert (Hle : (k <=? i) = false) by (apply Z.leb_gt; lia).
  rewrite Hneg, Hneg, Hle. cbn [orb].
  rewrite list_lookup_fmap. unfold py_range. rewrite list_lookup_fmap.
  rewrite (lookup_seq_lt 0 (Z.to_nat k) (Z.to_nat i)) by lia.
  cbn [fmap option_fmap option_map]. do 3 f_equal. lia.
Qed.

(** X11: on a multiple-steps game as its constructor returns it, the
    planning-level actions are the primitive actions:
    [legal_actions(simulation=True)] and [legal_actions(simulation=False)]
    both return the indices from 0 to [k - 1]. *)
Theorem multiple_steps_legal_actions (l : loc) (s n k : Z) (w : World)
    (e : env_obj) :
  heap w !! l = Some e → action_space e = Discrete k → 0 ≤ n →
  ∃ g,
    GymGameDoingMultipleStepsInSimulations_new l s n w = (w, inr g)
    ∧ legal_actions g true w = (w, inr (Indices (py_range k)))
    ∧ legal_actions g false w = (w, inr (Indices (py_range k))).
Proof.
  intros He Hk Hn.
  set (t := (λ a, replicate (Z.to_nat n) (inject_Z a)) <$> py_range k).
  exists (MultiStepGame l s n t).
  split; [apply (run_multiple_steps_new l s n k w e He Hk Hn) |].
  assert (Hlen : py_range (Z.of_nat (length t)) = py_range k).
  { unfold t. rewrite length_fmap.
    destruct (Z.leb_spec k 0) as [H0 | H0].
    - rewrite (py_range_nonpositive k H0). reflexivity.
    - rewrite py_range_length by lia. reflexivity. }
  split.
  - assert (H : GymGameWithMacroActions_legal_actions
                  (MultiStepGame l s n t) true w
                = (w, inr (py_range (Z.of_nat (length t)))))
      by reflexivity.
    cbn [legal_actions]. run_ok H. rewrite Hlen. reflexivity.
  - cbn [legal_actions]. rewrite run_bind.
    unfold GymGameWithMacroActions_legal_actions.
    rewrite (run_macro_legal_actions_evaluation _
               (MultiStepGame l s n t) w e He), Hk.
    reflexivity.
Qed.

(** X12: a negative repetition count is rejected when there is an action to
    repeat: the constructor raises [ValueError]. *)
Theorem multiple_steps_negative_count (l : loc) (s n k : Z) (w : World)
    (e : env_obj) :
  heap w !! l = Some e → action_space e = Discrete k → n < 0 → 1 ≤ k →
  GymGameDoingMultipleStepsInSimulations_new l s n w = (w, inl ValueError).
Proof.
  intros He Hk Hn Hk1. unfold GymGameDoingMultipleStepsInSimulations_new.
  run_ok (run_action_space_n l w e k He Hk).
  destruct (py_range_positive k Hk1) as [rest ->].
  cbn [repeated_actions]. unfold numpy_ones_times.
  destruct (Z.ltb_spec n 0); [| lia]. reflexivity.
Qed.

(** ** Edge cases of the composer *)

Lemma py_index_out_of_range {A} (l : list A) (i : Z) :
  i < - Z.of_nat (length l) ∨ Z.of_nat (length l) ≤ i →
  py_index l i = inl IndexError.
Proof.
  intros Hi. unfold py_index.
  destruct (Z.ltb_spec i 0) as [Hneg | Hpos].
  - destruct (Z.ltb_spec (i + Z.of_nat (length l)) 0); [reflexivity | lia].
  - destruct (Z.ltb_spec i 0); [lia |].
    destruct (Z.leb_spec (Z.of_nat (length l)) i); [reflexivity | lia].
Qed.

Lemma run_stored_simulation (g : Game) (i : Z) (w : World) :
  has_stored_table g = true →
  step g (PyInt i) true w
  = (mac_act ← lift (py_index (stored_table g) i);
     '(reward, last) ← traverse DiscreteGymGame_step g mac_act 0%Q None;
     reward ← lift (py_div reward (Z.of_nat (length mac_act)));
     match last with
     | Some (obs, done) => mret (Triple obs reward done)
     | None => raise UnboundLocalError
     end) w.
Proof. destruct g; intros H; try discriminate H; reflexivity. Qed.

(** X13: on a game with a stored table, [step(i, simulation=True)] with an
    index outside the table, below [-len] or from [len] on, raises
    [IndexError] and changes nothing. *)
Theorem macro_step_index_out_of_range (g : Game) (i : Z) (w : World) :
  has_stored_table g = true →
  i < - Z.of_nat (length (stored_table g))
  ∨ Z.of_nat (length (stored_table g)) ≤ i →
  step g (PyInt i) true w = (w, inl IndexError).
Proof.
  intros Hg Hi. rewrite (run_stored_simulation g i w Hg), run_bind.
  rewrite (py_index_out_of_range _ _ Hi). reflexivity.
Qed.

Lemma run_stored_empty (g : Game) (i : Z) (w : World) :
  has_stored_table g = true →
  py_index (stored_table g) i = inr [] →
  step g (PyInt i) true w = (w, inl ZeroDivisionError).
Proof.
  intros Hg Hi. rewrite (run_stored_simulation g i w Hg), run_bind, Hi.
  reflexivity.
Qed.

(** X14: on a game with a stored table, [step(i, simulation=True)] on an
    empty macro-action raises [ZeroDivisionError] and changes nothing: the
    reward is divided by the length of the macro-action. *)
Theorem macro_step_empty_macro_action (g : Game) (i : Z) (w : World) :
  has_stored_table g = true →
  py_index (stored_table g) i = inr [] →
  step g (PyInt i) true w = (w, inl ZeroDivisionError).
Proof. apply run_stored_empty. Qed.

(** X15: a multiple-steps game constructed with a repetition count of 0
    cannot be stepped in simulation: every planning-level action raises
    [ZeroDivisionError]. *)
Theorem multiple_steps_zero_count (l : loc) (s k i : Z) (w : World)
    (e : env_obj) :
  heap w !! l = Some e → action_space e = Discrete k → 0 ≤ i < k →
  ∃ g,
    GymGameDoingMultipleStepsInSimulations_new l s 0 w = (w, inr g)
    ∧ step g (PyInt i) true w = (w, inl ZeroDivisionError).
Proof.
  intros He Hk Hi.
  set (t := (λ a, replicate (Z.to_nat 0) (inject_Z a)) <$> py_range k).
  exists (MultiStepGame l s 0 t).
  split; [apply (run_multiple_steps_new l s 0 k w e He Hk ltac:(lia)) |].
  apply run_stored_empty; [reflexivity |].
  cbn [stored_table]. unfold t, py_range. rewrite <- list_fmap_compose.
  unfold py_index. rewrite length_fmap, length_seq.
  assert (Hneg : (i <? 0) = false) by (apply Z.ltb_ge; lia).
  assert (Hle : (Z.of_nat (Z.to_nat k) <=? i) = false)
    by (apply Z.leb_gt; lia).
  rewrite Hneg, Hneg, Hle. cbn [orb].
  rewrite list_lookup_fmap.
  rewrite (lookup_seq_lt 0 (Z.to_nat k) (Z.to_nat i)) by lia.
  reflexivity.
Qed.

(** ** Reset, rendering and closing *)

Section RenderingProperties.
Context {O : EnvironmentOps E}.

Lemma run_render_env (x : Game) (w : World) (e : env_obj) :
  heap w !! env x = Some e →
  render_env x w
  = (updated w (env x) (with_state e (env_render (state e)).1),
     inr (env_render (state e)).2).
Proof.
  intros He. unfold render_env. run_ok (run_deref _ _ _ He).
  destruct (env_render (state e)) as [s' f]. reflexivity.
Qed.

Lemma run_reset (g : Game) (seed : option Z) (w : World) (e : env_obj) :
  heap w !! env g = Some e →
  GymGame_reset g seed w
  = (updated w (env g) (with_state e (env_reset (state e) seed).1),
     inr (env_reset (state e) seed).2).
Proof.
  intros He. unfold GymGame_reset. run_ok (run_deref _ _ _ He).
  destruct (env_reset (state e) seed) as [s' r]. reflexivity.
Qed.

Lemma constructed_ext (g : Game) (w w' : World) :
  heap w' !! env g = heap w !! env g → constructed w' g = constructed w g.
Proof. intros H. unfold constructed. rewrite H. reflexivity. Qed.

(** [close] runs through the chain of render copies: it returns when their
    environments are live, keeps every object live, leaves the generator
    alone and writes to the environments of the chain only. *)
Lemma close_frame (o : GymGameObject) :
  ∀ w, Forall (λ l, is_Some (heap w !! l)) (chain_envs o) →
    ∃ w', GymGame_close o w = (w', inr ())
          ∧ np_random w' = np_random w
          ∧ (∀ l, l ∉ chain_envs o → heap w' !! l = heap w !! l)
          ∧ (∀ l, is_Some (heap w !! l) → is_Some (heap w' !! l))
          ∧ (∀ l, heap w !! l = None → heap w' !! l = None).
Proof.
  induction o as [g | g c IH] using GymGameObject_chain_ind; intros w Hlive;
    cbn [chain_envs] in Hlive; apply Forall_cons in Hlive as [[e He] Hrest];
    cbn [GymGame_close]; run_ok (run_deref _ _ _ He); rewrite run_bind;
    cbn [store].
  - eexists. split; [reflexivity |]. repeat split.
    + intros l Hl. apply lookup_insert_ne. cbn [chain_envs] in Hl.
      set_solver.
    + intros l Hl. cbn [heap]. destruct (decide (env g = l)) as [-> | Hne].
      * rewrite lookup_insert_eq. eauto.
      * rewrite lookup_insert_ne by exact Hne. exact Hl.
    + intros l Hl. cbn [heap]. rewrite lookup_insert_ne; [exact Hl |].
      intros Heq. rewrite <- Heq in Hl. congruence.
  - set (w1 := {| np_random := np_random w;
                  heap := <[env g := with_state e (env_close (state e))]>
                            (heap w) |}).
    assert (Hlive1 : Forall (λ l, is_Some (heap w1 !! l)) (chain_envs c)).
    { eapply Forall_impl; [exact Hrest |]. intros l Hl. cbn [heap w1].
      destruct (decide (env g = l)) as [-> | Hne].
      - rewrite lookup_insert_eq. eauto.
      - rewrite lookup_insert_ne by exact Hne. exact Hl. }
    destruct (IH w1 Hlive1) as (w' & Hrun & Hrng & Hframe & Hkeep & Hnone).
    exists w'. split; [exact Hrun |]. repeat split.
    + exact Hrng.
    + intros l Hl. cbn [chain_envs] in Hl.
      rewrite Hframe by set_solver. cbn [heap w1].
      apply lookup_insert_ne. set_solver.
    + intros l Hl. apply Hkeep. cbn [heap w1].
      destruct (decide (env g = l)) as [-> | Hne].
      * rewrite lookup_insert_eq. eauto.
      * rewrite lookup_insert_ne by exact Hne. exact Hl.
    + intros l Hl. apply Hnone. cbn [heap w1].
      rewrite lookup_insert_ne; [exact Hl |].
      intros Heq. rewrite <- Heq in Hl. congruence.
Qed.

(** What [render] does on a renderable object. *)
Lemma render_spec (g : Game) (rc : option GymGameObject) (w : World)
    (e : env_obj) :
  renderable w (Object g rc) →
  heap w !! env g = Some e →
  ∃ c w',
    GymGame_render (Object g rc) w
    = (w', inr (Object g (Some (Object c None)),
                (env_render (state e)).2))
    ∧ env c ≠ env g
    ∧ heap w !! env c = None
    ∧ heap w' !! env g = Some e
    ∧ heap w' !! env c = Some (with_state e (env_render (state e)).1)
    ∧ np_random w' = record_draw (np_random w) (Randint 1000000000).
Proof.
  intros [Hc Hshadow] He.
  assert (Hcopy : ∀ w0, heap w0 !! env g = Some e →
            np_random w0 = np_random w →
            (∀ l, heap w !! l = None → heap w0 !! l = None) →
            (∀ l, is_Some (heap w !! l) → is_Some (heap w0 !! l)) →
            ∃ c w',
              (c ← get_copy g; f ← render_env c;
               mret (Object g (Some (Object c None)), f)) w0
              = (w', inr (Object g (Some (Object c None)),
                          (env_render (state e)).2))
              ∧ env c ≠ env g
              ∧ heap w !! env c = None
              ∧ heap w' !! env g = Some e
              ∧ heap w' !! env c
                = Some (with_state e (env_render (state e)).1)
              ∧ np_random w'
                = record_draw (np_random w) (Randint 1000000000)).
  { intros w0 He0 Hrng Hnone Hkeep.
    assert (Hc0 : constructed w0 g = true).
    { rewrite <- Hc. apply constructed_ext. congruence. }
    destruct (get_copy_spec g w0 e He0 Hc0)
      as (c & w1 & Hrun & _ & _ & Hnew & Hec & Hframe & _).
    assert (Hne : env c ≠ env g) by (intros Heq; congruence).
    exists c, (updated w1 (env c) (with_state e (env_render (state e)).1)).
    split; [| split; [exact Hne | split; [| split; [| split]]]].
    - run_ok Hrun. run_ok (run_render_env c w1 e Hec). reflexivity.
    - destruct (heap w !! env c) eqn:Hold; [| reflexivity].
      assert (Hs : is_Some (heap w0 !! env c)) by (apply Hkeep; eauto).
      destruct Hs as [x Hx]. congruence.
    - cbn [heap updated]. rewrite lookup_insert_ne by exact Hne.
      rewrite Hframe; eauto.
    - apply lookup_insert_eq.
    - cbn [np_random updated]. rewrite <- Hrng.
      apply (get_copy_draws g w0 w1 c Hrun). }
  destruct rc as [old |]; cbn [GymGame_render].
  - assert (Hlive : Forall (λ l, is_Some (heap w !! l)) (chain_envs old)).
    { eapply Forall_impl; [exact Hshadow |]. intros l [_ Hl]. exact Hl. }
    destruct (close_frame old w Hlive)
      as (w0 & Hclose & Hrng & Hframe & Hkeep & Hnone).
    run_ok Hclose.
    apply Hcopy; auto.
    rewrite Hframe; [exact He |].
    intros Hin. rewrite Forall_forall in Hshadow.
    destruct (Hshadow _ Hin) as [Hne _]. congruence.
  - apply Hcopy; auto.
Qed.

(** X16: [render] on a renderable object returns, and leaves the game as
    it was: every later sequence of [step] and [legal_actions] calls on the
    game has the results it has without the rendering. *)
Theorem render_isolated (g : Game) (rc : option GymGameObject)
    (w : World) :
  renderable w (Object g rc) →
  ∃ o f w',
    GymGame_render (Object g rc) w = (w', inr (o, f))
    ∧ ∀ calls : list call, results g calls w' = results g calls w.
Proof.
  intros Hr. pose proof Hr as [Hc _]. unfold constructed in Hc.
  destruct (heap w !! env g) as [e |] eqn:He; [| discriminate].
  destruct (render_spec g rc w e Hr He) as (c & w' & Hrun & _ & _ & He' & _).
  eexists _, _, w'. split; [exact Hrun |]. intros calls.
  destruct (results_determined g calls e) as [rs Hrs].
  rewrite (Hrs w' He'), (Hrs w He). reflexivity.
Qed.

(** X17: after [render], the game holds exactly one render copy, a new game
    on an environment object of its own, and the object is renderable
    again: [render] can be called any number of times. *)
Theorem render_replaces_render_copy (g : Game) (rc : option GymGameObject)
    (w : World) :
  renderable w (Object g rc) →
  ∃ c f w',
    GymGame_render (Object g rc) w
    = (w', inr (Object g (Some (Object c None)), f))
    ∧ heap w !! env c = None
    ∧ renderable w' (Object g (Some (Object c None))).
Proof.
  intros Hr. pose proof Hr as [Hc _]. pose proof Hc as Hc'.
  unfold constructed in Hc'.
  destruct (heap w !! env g) as [e |] eqn:He; [| discriminate].
  destruct (render_spec g rc w e Hr He)
    as (c & w' & Hrun & Hne & Hnew & He' & Hec & _).
  exists c, (env_render (state e)).2, w'.
  split; [exact Hrun |]. split; [exact Hnew |]. split.
  - rewrite <- Hc. apply constructed_ext. congruence.
  - cbn [chain_envs]. constructor; [| constructor].
    split; [exact Hne | rewrite Hec; eauto].
Qed.

(** X18: the frame [render] returns is the one [env.render] produces from
    the current state of the game's environment; it is produced on the
    render copy, whose environment takes the state rendering leaves, while
    the environment of the game keeps its state. *)
Theorem render_shows_current_state (g : Game) (rc : option GymGameObject)
    (w : World) (e : env_obj) :
  renderable w (Object g rc) →
  heap w !! env g = Some e →
  ∃ c w',
    GymGame_render (Object g rc) w
    = (w', inr (Object g (Some (Object c None)),
                (env_render (state e)).2))
    ∧ heap w' !! env g = Some e
    ∧ heap w' !! env c = Some (with_state e (env_render (state e)).1).
Proof.
  intros Hr He.
  destruct (render_spec g rc w e Hr He)
    as (c & w' & Hrun & _ & _ & He' & Hec & _).
  exists c, w'. auto.
Qed.

(** X19: every [render] consumes one draw of the shared generator, the seed
    of the render copy: rendering changes what the next [sample_action] or
    [get_copy] draws. *)
Theorem render_consumes_a_draw (g : Game) (rc : option GymGameObject)
    (w : World) :
  renderable w (Object g rc) →
  ∃ o f w',
    GymGame_render (Object g rc) w = (w', inr (o, f))
    ∧ np_random w' = record_draw (np_random w) (Randint 1000000000).
Proof.
  intros Hr. pose proof Hr as [Hc _]. unfold constructed in Hc.
  destruct (heap w !! env g) as [e |] eqn:He; [| discriminate].
  destruct (render_spec g rc w e Hr He)
    as (c & w' & Hrun & _ & _ & _ & _ & Hrng).
  eexists _, _, w'. split; [exact Hrun | exact Hrng].
Qed.

(** X20: [close] on a game whose environment and render copies are distinct
    live objects closes each of them once, along the whole chain of render
    copies, and touches neither another object nor the generator. *)
Theorem close_closes_render_copies (o : GymGameObject) :
  ∀ w,
    NoDup (chain_envs o) →
    Forall (λ l, is_Some (heap w !! l)) (chain_envs o) →
    ∃ w', GymGame_close o w = (w', inr ())
          ∧ (∀ l e, l ∈ chain_envs o → heap w !! l = Some e →
                    heap w' !! l = Some (closed e))
          ∧ (∀ l, l ∉ chain_envs o → heap w' !! l = heap w !! l)
          ∧ np_random w' = np_random w.
Proof.
  induction o as [g | g c IH] using GymGameObject_chain_ind;
    intros w Hnodup Hlive; cbn [chain_envs] in *;
    apply NoDup_cons in Hnodup as [Hfirst Hnodup];
    apply Forall_cons in Hlive as [[e He] Hrest];
    cbn [GymGame_close]; run_ok (run_deref _ _ _ He); rewrite run_bind;
    cbn [store].
  - eexists. split; [reflexivity |]. repeat split.
    + intros l e' Hl He'. apply list_elem_of_singleton in Hl as ->.
      cbn [heap]. rewrite lookup_insert_eq. unfold closed. congruence.
    + intros l Hl. apply lookup_insert_ne. set_solver.
  - set (w1 := {| np_random := np_random w;
                  heap := <[env g := with_state e (env_close (state e))]>
                            (heap w) |}).
    assert (Hother : ∀ l, l ∈ chain_envs c → heap w1 !! l = heap w !! l).
    { intros l Hl. cbn [heap w1]. apply lookup_insert_ne.
      intros Heq. rewrite Heq in Hfirst. contradiction. }
    assert (Hlive1 : Forall (λ l, is_Some (heap w1 !! l)) (chain_envs c)).
    { rewrite Forall_forall in Hrest |- *. intros l Hl.
      rewrite (Hother l Hl). apply Hrest. exact Hl. }
    destruct (IH w1 Hnodup Hlive1) as (w' & Hrun & Hclosed & Hframe & Hrng).
    exists w'. split; [exact Hrun |]. repeat split.
    + intros l e' Hl He'. apply elem_of_cons in Hl as [-> | Hl].
      * rewrite (Hframe _ Hfirst). cbn [heap w1].
        rewrite lookup_insert_eq. unfold closed. congruence.
      * apply Hclosed; [exact Hl |]. rewrite (Hother l Hl). exact He'.
    + intros l Hl. rewrite Hframe by set_solver. cbn [heap w1].
      apply lookup_insert_ne. set_solver.
    + exact Hrng.
Qed.

Section ResetSampling.
Context {L : GeneratorLaws R}.

(** X21: [reset(seed)] reseeds nothing but the environment: the generator
    is left as it was, and the next [sample_action] returns what it would
    have returned without the reset. *)
Theorem reset_leaves_generator (g : Game) (seed : option Z) (w : World)
    (e : env_obj) :
  heap w !! env g = Some e →
  samplable g (action_space e) = true →
  ∃ w1 v,
    GymGame_reset g seed w = (w1, inr (env_reset (state e) seed).2)
    ∧ np_random w1 = np_random w
    ∧ (sample_action g false w1).2 = inr v
    ∧ (sample_action g false w).2 = inr v.
Proof.
  intros He Hs.
  set (e1 := with_state e (env_reset (state e) seed).1).
  set (w1 := updated w (env g) e1).
  assert (He1 : heap w1 !! env g = Some e1) by apply lookup_insert_eq.
  destruct (run_sample_action g w e He Hs) as [d Hd].
  destruct (run_sample_action g w1 e1 He1 Hs) as [d1 Hd1].
  exists w1, (sample_value g (action_space e) (np_random w)).
  split; [apply (run_reset g seed w e He) |]. split; [reflexivity |].
  rewrite Hd, Hd1. split; reflexivity.
Qed.

End ResetSampling.

End RenderingProperties.

(** ** The name of a game *)

Lemma py_split_first (sep : ascii) (s : list ascii) :
  ∃ p ps, py_split sep s = p :: ps ∧ (sep ∉ p) ∧ (p `prefix_of` s).
Proof.
  induction s as [| c rest (p & ps & IH & Hfree & Hpre)].
  - exists [], []. repeat split; [set_solver | apply prefix_nil].
  - cbn [py_split]. destruct (Ascii.eqb_spec c sep) as [-> | Hne].
    + exists [], (py_split sep rest).
      repeat split; [set_solver | apply prefix_nil].
    + rewrite IH. exists (c :: p), ps. repeat split.
      * intros Hin. apply elem_of_cons in Hin as [Heq | Hin];
          [congruence | contradiction].
      * apply prefix_cons. exact Hpre.
Qed.

Lemma py_split_last (sep : ascii) (s : list ascii) :
  ∃ ps p, py_split sep s = ps ++ [p] ∧ (sep ∉ p) ∧ (p `suffix_of` s)
          ∧ (ps = [] → p = s).
Proof.
  induction s as [| c rest (ps & p & IH & Hfree & Hsuf & Hwhole)].
  - exists [], []. repeat split; [set_solver | reflexivity].
  - cbn [py_split]. destruct (Ascii.eqb_spec c sep) as [-> | Hne].
    + exists ([] :: ps), p. rewrite IH.
      repeat split; [exact Hfree | apply suffix_cons_r; exact Hsuf |].
      discriminate.
    + rewrite IH. destruct ps as [| q qs].
      * rewrite (Hwhole eq_refl). exists [], (c :: rest).
        repeat split; [| reflexivity].
        intros Hin. apply elem_of_cons in Hin as [Heq | Hin];
          [congruence |].
        rewrite (Hwhole eq_refl) in Hfree. contradiction.
      * exists ((c :: q) :: qs), p.
        repeat split; [exact Hfree | apply suffix_cons_r; exact Hsuf |].
        discriminate.
Qed.

Lemma py_split_app (sep : ascii) (a b : list ascii) :
  py_split sep (a ++ sep :: b) = py_split sep a ++ py_split sep b.
Proof.
  induction a as [| c a IH]; cbn [app py_split].
  - rewrite Ascii.eqb_refl. reflexivity.
  - rewrite IH. destruct (Ascii.eqb c sep); [reflexivity |].
    destruct (py_split_first sep a) as (p & ps & -> & _). reflexivity.
Qed.

Lemma py_split_free (sep : ascii) (s : list ascii) :
  sep ∉ s → py_split sep s = [s].
Proof.
  induction s as [| c rest IH]; intros Hfree; [reflexivity |].
  cbn [py_split]. destruct (Ascii.eqb_spec c sep) as [-> | Hne].
  - set_solver.
  - rewrite IH by set_solver. reflexivity.
Qed.

Lemma py_index_head {A} (x : A) (l : list A) : py_index (x :: l) 0 = inr x.
Proof.
  unfold py_index. cbn [length]. rewrite Nat2Z.inj_succ.
  change (0 <? 0) with false. cbv iota.
  destruct (Z.leb_spec (Z.succ (Z.of_nat (length l))) 0); [lia |].
  reflexivity.
Qed.

Lemma py_index_last {A} (l : list A) (x : A) :
  py_index (l ++ [x]) (-1) = inr x.
Proof.
  unfold py_index. rewrite length_app. cbn [length].
  replace (-1 + Z.of_nat (length l + 1)) with (Z.of_nat (length l)) by lia.
  change (-1 <? 0) with true. cbv iota.
  destruct (Z.ltb_spec (Z.of_nat (length l)) 0); [lia |].
  destruct (Z.leb_spec (Z.of_nat (length l + 1)) (Z.of_nat (length l)));
    [lia |].
  cbn [orb]. rewrite Nat2Z.id, list_lookup_middle by reflexivity.
  reflexivity.
Qed.

Lemma delimiter_false (c : ascii) :
  delimiter c = false ↔ c ≠ "<"%char ∧ c ≠ ">"%char ∧ c ≠ " "%char.
Proof.
  unfold delimiter.
  destruct (Ascii.eqb_spec c "<"); destruct (Ascii.eqb_spec c ">");
    destruct (Ascii.eqb_spec c " "); cbn; split; try discriminate;
    try tauto; intros (? & ? & ?); tauto.
Qed.

(** X22: [__str__] always returns a name, whatever the text of the
    environment; the name is a contiguous part of that text and contains
    none of the characters it splits at: no angle bracket and no space. *)
Theorem str_has_no_delimiter (env_str : list ascii) :
  ∃ name,
    GymGame_str env_str = inr name
    ∧ (∀ c, c ∈ name → delimiter c = false)
    ∧ ∃ before after, env_str = before ++ name ++ after.
Proof.
  unfold GymGame_str.
  destruct (py_split_last "<" env_str)
    as (ps & inner & -> & Hlt & [before ->] & _).
  rewrite py_index_last.
  destruct (py_split_first ">" inner) as (p1 & ps1 & -> & Hgt & [k1 ->]).
  rewrite py_index_head.
  destruct (py_split_first " " p1) as (name & ps2 & -> & Hsp & [k2 ->]).
  rewrite py_index_head. exists name. split; [reflexivity |]. split.
  - intros c Hc. apply delimiter_false. repeat split; intros ->.
    + apply Hlt. set_solver.
    + apply Hgt. set_solver.
    + contradiction.
  - exists before, (k2 ++ k1). rewrite <- !app_assoc. reflexivity.
Qed.

(** X23: on a text that ends with [<name>] and whatever follows the closing
    bracket, where [name] has no bracket and no space and no opening bracket
    follows, [__str__] returns [name]: the innermost name of a nest of
    wrappers. *)
Theorem str_innermost_name (before name after : list ascii) :
  (∀ c, c ∈ name → delimiter c = false) →
  "<"%char ∉ after →
  GymGame_str (before ++ "<"%char :: name ++ ">"%char :: after) = inr name.
Proof.
  intros Hname Hafter.
  assert (Hfree : ∀ c, delimiter c = true → c ∉ name).
  { intros c Hc Hin. rewrite (Hname c Hin) in Hc. discriminate. }
  unfold GymGame_str. rewrite py_split_app.
  rewrite (py_split_free "<" (name ++ ">"%char :: after)).
  2: { intros Hin. apply elem_of_app in Hin as [Hin | Hin].
       - apply (Hfree "<"%char eq_refl Hin).
       - apply elem_of_cons in Hin as [Heq | Hin];
           [discriminate | contradiction]. }
  rewrite py_index_last, py_split_app.
  rewrite (py_split_free ">" name) by (apply Hfree; reflexivity).
  cbn [app]. rewrite py_index_head.
  rewrite (py_split_free " " name) by (apply Hfree; reflexivity).
  apply py_index_head.
Qed.

(** X24: a text with no angle bracket and no space is returned whole. *)
Theorem str_plain_text (env_str : list ascii) :
  (∀ c, c ∈ env_str → delimiter c = false) →
  GymGame_str env_str = inr env_str.
Proof.
  intros Hplain.
  assert (Hfree : ∀ c, delimiter c = true → c ∉ env_str).
  { intros c Hc Hin. rewrite (Hplain c Hin) in Hc. discriminate. }
  unfold GymGame_str.
  rewrite (py_split_free "<" env_str) by (apply Hfree; reflexivity).
  change [env_str] with ([] ++ [env_str]). rewrite py_index_last.
  rewrite (py_split_free ">" env_str) by (apply Hfree; reflexivity).
  rewrite py_index_head.
  rewrite (py_split_free " " env_str) by (apply Hfree; reflexivity).
  apply py_index_head.
Qed.

(** ** The shared generator *)

Section SharedGenerator.
Context {L : GeneratorLaws R}.

(** [sample_action] makes one draw from the generator of the world and
    returns a value computed from the state that generator was in. *)
Lemma run_sample_action_draw (g : Game) (w : World) (e : env_obj) :
  heap w !! env g = Some e → samplable g (action_space e) = true →
  sample_action g false w
  = (drew w (sample_draw g (action_space e)),
     inr (sample_value g (action_space e) (np_random w))).
Proof.
  intros He Hs.
  assert (Hdisc : ∀ k, action_space e = Discrete k →
            DiscreteGymGame_legal_actions g w = (w, inr (py_range k))
            ∧ GymGameWithMacroActions_legal_actions g false w
              = (w, inr (py_range k))).
  { intros k Hk. split.
    - unfold DiscreteGymGame_legal_actions.
      run_ok (run_action_space_n _ _ _ _ He Hk). reflexivity.
    - unfold GymGameWithMacroActions_legal_actions.
      rewrite (run_macro_legal_actions_evaluation _ g w e He), Hk.
      reflexivity. }
  destruct g as [l s | l mu sigma s | l s t | l s n t | l k0 d cap s];
    cbn [sample_action]; unfold samplable in Hs;
    unfold sample_value, sample_draw;
    destruct (action_space e) as [k | low high] eqn:Hsp; try discriminate.
  2: { destruct low as [| l0 low]; [discriminate |].
       destruct high as [| h0 high]; [discriminate |].
       run_ok (run_continuous_sample_action _ mu sigma w e l0 h0 low high
                 He Hsp Hs).
       reflexivity. }
  all: apply Z.leb_le in Hs; destruct (Hdisc k eq_refl) as [Hd Hm].
  - run_ok (run_discrete_sample_action
              (λ g _, DiscreteGymGame_legal_actions g) _ w k Hd Hs).
    reflexivity.
  - run_ok (run_discrete_sample_action _ _ w k Hm Hs). reflexivity.
  - run_ok (run_discrete_sample_action _ _ w k Hm Hs). reflexivity.
  - run_ok (run_discrete_sample_action _ _ w k Hm Hs). reflexivity.
Qed.

Lemma sample_draw_assign_seed (g : Game) (s : Z) (sp : Space) :
  sample_draw (assign_seed g s) sp = sample_draw g sp.
Proof. destruct g; reflexivity. Qed.

(** After [set_seed(s)] of the instance [g'], the object of [g] is live and
    has the action space it had. *)
Lemma set_seed_keeps_space (g g' : Game) (s : Z) (w : World)
    (e e' : env_obj) :
  heap w !! env g = Some e → heap w !! env g' = Some e' →
  ∃ e1,
    heap (reseeded (updated w (env g') (env_reseeded e' s)) s) !! env g
    = Some e1
    ∧ action_space e1 = action_space e.
Proof.
  intros He He'. cbn [heap reseeded updated].
  destruct (decide (env g' = env g)) as [Heq | Hne].
  - exists (env_reseeded e' s). split.
    + rewrite <- Heq. apply lookup_insert_eq.
    + rewrite Heq in He'. cbn [env_reseeded action_space]. congruence.
  - exists e. split; [| reflexivity].
    rewrite lookup_insert_ne by exact Hne. exact He.
Qed.

(** C6 (as amended): the randomness of every instance comes from the one
    generator of [numpy.random] that all instances share, never from a
    generator of its own.  On any state of that generator, that is whatever
    seed it was last given and whatever draws were made since, and by
    whichever instances: [sample_action] of a game, of any class, makes one
    draw from it and returns a value computed from that state, the same for
    every seed the game may store; [get_copy] seeds the copy with one draw
    from it; [set_seed(s)] of any instance reseeds it.  So after
    [set_seed(s)] of any instance, [sample_action] of a game returns what it
    returns after its own [set_seed(s)], and a draw another instance makes in
    between changes the state it draws from. *)
Theorem draws_come_from_shared_generator (g g' : Game) (s : Z) (w : World)
    (e e' : env_obj) :
  heap w !! env g = Some e →
  samplable g (action_space e) = true →
  constructed w g = true →
  heap w !! env g' = Some e' →
  samplable g' (action_space e') = true →
  gen_seed_ok s = true →
  (* sample_action draws from the generator of the world *)
  (∀ s0, sample_action (assign_seed g s0) false w
         = (drew w (sample_draw g (action_space e)),
            inr (sample_value g (action_space e) (np_random w))))
  (* get_copy draws the seed of the copy from it *)
  ∧ (∃ c w1,
       get_copy g w = (w1, inr c)
       ∧ get_seed c = gen_randint (np_random w) 1000000000
       ∧ np_random w1 = record_draw (np_random w) (Randint 1000000000))
  (* set_seed of any instance reseeds it *)
  ∧ (∃ g1 w1, set_seed g' s w = (w1, inr g1) ∧ np_random w1 = seeded s)
  (* after set_seed of any instance, the sample is that of the seed *)
  ∧ ((set_seed g' s ≫= λ _, sample_action g false) w).2
    = inr (sample_value g (action_space e) (seeded s))
  ∧ ((set_seed g s ≫= λ g1, sample_action g1 false) w).2
    = inr (sample_value g (action_space e) (seeded s))
  (* a draw of another instance in between moves the generator on *)
  ∧ ((set_seed g s ≫= λ g1,
        sample_action g' false ≫= λ _, sample_action g1 false) w).2
    = inr (sample_value g (action_space e)
             (record_draw (seeded s) (sample_draw g' (action_space e')))).
Proof.
  intros He Hs Hc He' Hs' Hseed.
  (* the world after set_seed of either instance *)
  destruct (set_seed_keeps_space g g' s w e e' He He') as (e1 & He1 & Hsp1).
  destruct (set_seed_keeps_space g' g s w e' e He' He) as (e2 & He2 & Hsp2).
  set (w1 := reseeded (updated w (env g') (env_reseeded e' s)) s) in *.
  set (w2 := reseeded (updated w (env g) (env_reseeded e s)) s) in *.
  set (g2 := assign_seed g s).
  assert (Hg2 : heap w2 !! env g2 = Some (env_reseeded e s)).
  { unfold g2. rewrite env_assign_seed. apply lookup_insert_eq. }
  assert (Hsg2 : samplable g2 (action_space (env_reseeded e s)) = true).
  { unfold g2. rewrite samplable_assign_seed. exact Hs. }
  split; [| split; [| split; [| split; [| split]]]].
  - intros s0.
    assert (He0 : heap w !! env (assign_seed g s0) = Some e)
      by (rewrite env_assign_seed; exact He).
    assert (Hs0 : samplable (assign_seed g s0) (action_space e) = true)
      by (rewrite samplable_assign_seed; exact Hs).
    rewrite (run_sample_action_draw _ w e He0 Hs0).
    rewrite sample_draw_assign_seed, sample_value_assign_seed. reflexivity.
  - destruct (get_copy_spec g w e He Hc) as (c & w3 & Hcopy & _ & Hcs & _).
    exists c, w3. split; [exact Hcopy |]. split; [exact Hcs |].
    apply (get_copy_draws g w w3 c Hcopy).
  - exists (assign_seed g' s), w1. split; [| reflexivity].
    apply (run_set_seed g' s w e' He' Hseed).
  - run_ok (run_set_seed g' s w e' He' Hseed). fold w1.
    rewrite (run_sample_action_draw g w1 e1 He1) by (rewrite Hsp1; exact Hs).
    rewrite Hsp1. reflexivity.
  - run_ok (run_set_seed g s w e He Hseed). fold w2 g2.
    rewrite (run_sample_action_draw g2 w2 _ Hg2 Hsg2).
    unfold g2. rewrite sample_value_assign_seed. reflexivity.
  - run_ok (run_set_seed g s w e He Hseed). fold w2 g2.
    assert (Hs2 : samplable g' (action_space e2) = true)
      by (rewrite Hsp2; exact Hs').
    run_ok (run_sample_action_draw g' w2 e2 He2 Hs2).
    set (w3 := drew w2 (sample_draw g' (action_space e2))).
    assert (Hg3 : heap w3 !! env g2 = Some (env_reseeded e s)) by exact Hg2.
    rewrite (run_sample_action_draw g2 w3 _ Hg3 Hsg2).
    unfold g2, w3. rewrite sample_value_assign_seed. cbn [np_random drew].
    rewrite Hsp2. reflexivity.
Qed.

End SharedGenerator.
End Properties.

(** * The properties on concrete games *)

Import Fixture.

Lemma sample_action_within_bounds_witness :
  ∃ v w', ContinuousGymGame_sample_action continuous 0 1 bounded = (w', inr v)
          ∧ ((-2) <= v <= 2)%Q.
Proof.
  apply (sample_action_within_bounds continuous 0 1 bounded
           (box_env [(-2)%Q] [2%Q]) (-2) 2 [] []);
    [reflexivity | reflexivity | reflexivity | discriminate].
Defined.

Lemma legal_actions_empty_table_witness :
  legal_actions no_macro_actions true short_episode
  = (short_episode, inr (Indices [])).
Proof. apply legal_actions_empty_table. reflexivity. Defined.

(** C8, as stated, fails: with an empty table no error is signalled. *)
Lemma empty_table_signals_no_error :
  ¬ ∃ err, (legal_actions no_macro_actions true short_episode).2 = inl err.
Proof. intros [err H]. vm_compute in H. discriminate H. Qed.

(** C1: on a macro-action of four primitives whose rewards are 1, 2, 3, 4
    and whose episode is done after the second, the composition the claim
    describes executes two primitives and returns the mean 3/2 of their
    rewards; [step(0, simulation=True)] steps the environment once and
    raises [ValueError], returning no reward at all. *)
Theorem macro_step_simulation_raises :
  (spec_executed (state (after 0)) [0%Q; 0%Q; 0%Q; 0%Q]).1 = state (after 2)
  ∧ (spec_macro_reward (state (after 0)) [0%Q; 0%Q; 0%Q; 0%Q] == 3 # 2)%Q
  ∧ step four_primitives (PyInt 0) true short_episode
    = (updated short_episode (env four_primitives) (after 1),
       inl ValueError).
Proof.
  split; [reflexivity |]. split; [reflexivity |]. vm_compute. reflexivity.
Qed.

(** C3: with a cap of 2, a sign that never flips and an episode that does
    not end, the property raises, because the [step] of the copy fails to
    unpack; over a [step] that returns its triple the loop guard [it <= cap]
    allows a third repetition, and both macro-actions have length 3. *)
Theorem macro_action_longer_than_cap :
  (macro_actions capped_at_two steady).2 = inl ValueError
  ∧ (PendulumGameWithEngineeredMacroActions_macro_actions_with get_copy
       DiscreteGymGame_step 2 capped_at_two steady).2
    = inr [[0%Q; 0%Q; 0%Q]; [1%Q; 1%Q; 1%Q]].
Proof. split; vm_compute; reflexivity. Qed.

(** C4: on a macro-action game, [step(0, simulation=False)] steps the
    environment once and then raises [ValueError] instead of returning a
    triple. *)
Theorem macro_step_evaluation_raises :
  step four_primitives (PyInt 0) false short_episode
  = (updated short_episode (env four_primitives) (after 1), inl ValueError).
Proof. vm_compute. reflexivity. Qed.

Lemma get_copy_keeps_configuration_witness :
  ∃ c w', get_copy capped_at_two steady = (w', inr c)
          ∧ config c = PendulumConfig 2 (1 # 2) 2.
Proof.
  apply (get_copy_keeps_configuration capped_at_two steady). reflexivity.
Defined.

Lemma copy_independence_witness :
  ∃ c w1,
    get_copy first_game two_games = (w1, inr c)
    ∧ ∀ (a : number) (sim : bool) (calls : list call),
        results first_game calls (step c a sim w1).1
        = results first_game calls two_games.
Proof. apply (copy_independence first_game two_games). reflexivity. Defined.

Lemma seeding_reproduces_sample_witness :
  ∃ o w', seed_sample_twice first_game 5 two_games = (w', inr (o, o)).
Proof.
  apply (seeding_reproduces_sample first_game 5 two_games);
    reflexivity.
Defined.

Lemma draws_come_from_shared_generator_witness :
  (∀ s0, sample_action (assign_seed first_game s0) false two_games
         = (drew two_games
              (sample_draw first_game (Discrete 4)),
            inr (sample_value first_game (Discrete 4) (np_random two_games))))
  ∧ (∃ c w1,
       get_copy first_game two_games = (w1, inr c)
       ∧ get_seed c = gen_randint (np_random two_games) 1000000000
       ∧ np_random w1
         = record_draw (np_random two_games) (Randint 1000000000))
  ∧ (∃ g1 w1,
       set_seed second_game 5 two_games = (w1, inr g1)
       ∧ np_random w1 = seeded 5)
  ∧ ((set_seed second_game 5 ≫= λ _, sample_action first_game false)
       two_games).2
    = inr (sample_value first_game (Discrete 4) (seeded 5))
  ∧ ((set_seed first_game 5 ≫= λ g1, sample_action g1 false) two_games).2
    = inr (sample_value first_game (Discrete 4) (seeded 5))
  ∧ ((set_seed first_game 5 ≫= λ g1,
        sample_action second_game false ≫= λ _, sample_action g1 false)
       two_games).2
    = inr (sample_value first_game (Discrete 4)
             (record_draw (seeded 5)
                (sample_draw second_game (Discrete 4)))).
Proof.
  apply (draws_come_from_shared_generator first_game second_game 5
           two_games (discrete_env 4 100 200) (discrete_env 4 100 200));
    reflexivity.
Defined.

(** C6, as stated, fails: after the same [set_seed(5)], the draw of one
    instance changes when another instance has drawn in between. *)
Lemma other_instance_changes_draw :
  ((g ← set_seed first_game 5; sample_action g false) two_games).2
  = inr (PyInt 1)
  ∧ ((g ← set_seed first_game 5;
      sample_action second_game false;;
      sample_action g false) two_games).2
    = inr (PyInt 2)
  ∧ ((g ← set_seed first_game 5; sample_action g false) two_games).2
    ≠ ((g ← set_seed first_game 5;
        sample_action second_game false;;
        sample_action g false) two_games).2.
Proof.
  split; [vm_compute; reflexivity |]. split; [vm_compute; reflexivity |].
  vm_compute. discriminate.
Qed.

Lemma set_seed_reseeds_and_stores_witness :
  ∃ g' w',
    set_seed first_game 5 two_games = (w', inr g')
    ∧ get_seed g' = 5
    ∧ np_random w' = {| seeded_with := Some 5; drawn := [] |}
    ∧ seed_agrees w' g'.
Proof.
  apply (set_seed_reseeds_and_stores first_game 5 two_games);
    [eexists; reflexivity | reflexivity].
Defined.

(** C7, as stated, fails: a game constructed with seed 5 stores 5 while the
    generator was never seeded; and after another instance has called
    [set_seed(7)], a game that called [set_seed(5)] still stores 5 while the
    generator is seeded with 7. *)
Lemma stored_seed_and_generator_disagree :
  (DiscreteGymGame_new (env first_game) 5 two_games = (two_games, inr (assign_seed first_game 5))
   ∧ get_seed (assign_seed first_game 5) = 5
   ∧ ¬ seed_agrees two_games (assign_seed first_game 5))
  ∧ (∃ w',
       (g ← set_seed first_game 5;
        set_seed second_game 7;;
        mret g) two_games = (w', inr (assign_seed first_game 5))
       ∧ ¬ seed_agrees w' (assign_seed first_game 5)).
Proof.
  split.
  - split; [vm_compute; reflexivity |]. split; [reflexivity |].
    unfold seed_agrees. vm_compute. discriminate.
  - eexists. split; [vm_compute; reflexivity |].
    unfold seed_agrees. vm_compute. intros H. discriminate H.
Qed.

(** * The further properties on concrete games *)

Import Scenes.

Lemma legal_actions_enumerates_witness :
  ∃ l, legal_actions first_game false two_games
       = (two_games, inr (Indices l))
       ∧ NoDup l
       ∧ Z.of_nat (length l) = Z.max 0 4
       ∧ ∀ i, i ∈ l ↔ 0 ≤ i < 4.
Proof.
  apply (legal_actions_enumerates first_game two_games
           (discrete_env 4 100 200) 4); reflexivity.
Defined.

Lemma step_executes_one_primitive_witness :
  ∃ s' obs rew terminated truncated,
    env_step (state (discrete_env 4 100 200))
      (primitive first_game (PyFloat (5 # 2)))
    = (s', (obs, rew, terminated, truncated))
    ∧ step first_game (PyFloat (5 # 2)) true two_games
      = (updated two_games (env first_game)
           (with_state (discrete_env 4 100 200) s'),
         inr (Triple obs rew (terminated || truncated))).
Proof.
  apply (step_executes_one_primitive first_game (PyFloat (5 # 2)) true
           two_games (discrete_env 4 100 200)); reflexivity.
Defined.

Lemma sample_action_without_legal_actions_witness :
  sample_action no_macro_actions true short_episode
  = (short_episode, inl ValueError).
Proof.
  apply (sample_action_without_legal_actions no_macro_actions true
           short_episode short_episode); reflexivity.
Defined.

Lemma sample_action_is_legal_witness :
  ∃ a, sample_action thrice true two_games
       = (drew two_games
            (RandomIntegers 0 (Z.of_nat (length [0; 1; 2; 3]) - 1)),
          inr (PyInt a))
       ∧ a ∈ [0; 1; 2; 3].
Proof.
  apply (sample_action_is_legal thrice true two_games two_games
           [0; 1; 2; 3]); [reflexivity | reflexivity | discriminate].
Defined.

Lemma sample_action_clamps_witness :
  ∃ v, ContinuousGymGame_sample_action continuous 0 1 bounded
       = (drew bounded (Normal 0 1), inr v)
       ∧ let a := gen_normal (np_random bounded) 0 1 in
         (((-2) <= a)%Q → (a <= 2)%Q → v = a)
         ∧ ((a < (-2))%Q → ((-2) <= 2)%Q → v = (-2)%Q)
         ∧ (((-2) <= a)%Q → (2 < a)%Q → v = 2%Q)
         ∧ ((2 < (-2))%Q → v = 2%Q).
Proof.
  apply (sample_action_clamps continuous 0 1 bounded
           (box_env [(-2)%Q] [2%Q]) (-2) 2 [] []); reflexivity.
Defined.

Lemma set_seed_rejected_witness :
  set_seed first_game (-1) two_games
  = (updated two_games (env first_game)
       (env_reseeded (discrete_env 4 100 200) (-1)),
     inl ValueError).
Proof.
  apply (set_seed_rejected first_game (-1) two_games
           (discrete_env 4 100 200)); reflexivity.
Defined.

Lemma get_copy_owns_new_environment_witness :
  ∃ c w1,
    get_copy capped_at_two steady = (w1, inr c)
    ∧ heap steady !! env c = None
    ∧ heap w1 !! env c = Some (discrete_env 2 100 200)
    ∧ ∀ l, is_Some (heap steady !! l) → heap w1 !! l = heap steady !! l.
Proof.
  apply (get_copy_owns_new_environment capped_at_two steady
           (discrete_env 2 100 200)); reflexivity.
Defined.

Lemma get_copy_seed_witness :
  ∃ c w1,
    get_copy first_game two_games = (w1, inr c)
    ∧ get_seed c = gen_randint (np_random two_games) 1000000000
    ∧ 0 ≤ get_seed c < 1000000000
    ∧ np_random w1
      = record_draw (np_random two_games) (Randint 1000000000).
Proof. apply (get_copy_seed first_game two_games). reflexivity. Defined.

Lemma copy_steps_like_source_witness :
  ∃ c w1,
    get_copy first_game two_games = (w1, inr c)
    ∧ ∀ a : number,
        (step c a false w1).2 = (step first_game a false two_games).2.
Proof. apply (copy_steps_like_source first_game two_games). reflexivity. Defined.

Lemma multiple_steps_table_witness :
  ∃ t,
    GymGameDoingMultipleStepsInSimulations_new 1%positive 0 3 two_games
    = (two_games, inr (MultiStepGame 1%positive 0 3 t))
    ∧ Z.of_nat (length t) = Z.max 0 4
    ∧ ∀ i, 0 ≤ i < 4 →
        py_index t i = inr (replicate (Z.to_nat 3) (inject_Z i)).
Proof.
  apply (multiple_steps_table 1%positive 0 3 4 two_games (discrete_env 4 100 200));
    [reflexivity | reflexivity | lia].
Defined.

Lemma multiple_steps_legal_actions_witness :
  ∃ g,
    GymGameDoingMultipleStepsInSimulations_new 1%positive 0 3 two_games
    = (two_games, inr g)
    ∧ legal_actions g true two_games
      = (two_games, inr (Indices (py_range 4)))
    ∧ legal_actions g false two_games
      = (two_games, inr (Indices (py_range 4))).
Proof.
  apply (multiple_steps_legal_actions 1%positive 0 3 4 two_games
           (discrete_env 4 100 200)); [reflexivity | reflexivity | lia].
Defined.

Lemma multiple_steps_negative_count_witness :
  GymGameDoingMultipleStepsInSimulations_new 1%positive 0 (-1) two_games
  = (two_games, inl ValueError).
Proof.
  apply (multiple_steps_negative_count 1%positive 0 (-1) 4 two_games
           (discrete_env 4 100 200)); [reflexivity | reflexivity | lia | lia].
Defined.

Lemma macro_step_index_out_of_range_witness :
  step with_empty_macro_action (PyInt 2) true two_games
  = (two_games, inl IndexError).
Proof.
  apply (macro_step_index_out_of_range with_empty_macro_action 2 two_games);
    [reflexivity | right; simpl; lia].
Defined.

Lemma macro_step_empty_macro_action_witness :
  step with_empty_macro_action (PyInt 1) true two_games
  = (two_games, inl ZeroDivisionError).
Proof.
  apply (macro_step_empty_macro_action with_empty_macro_action 1 two_games);
    reflexivity.
Defined.

Lemma multiple_steps_zero_count_witness :
  ∃ g,
    GymGameDoingMultipleStepsInSimulations_new 1%positive 0 0 two_games
    = (two_games, inr g)
    ∧ step g (PyInt 2) true two_games = (two_games, inl ZeroDivisionError).
Proof.
  apply (multiple_steps_zero_count 1%positive 0 4 2 two_games
           (discrete_env 4 100 200)); [reflexivity | reflexivity | lia].
Defined.

Lemma renderable_rendered_once : renderable two_games rendered_once.
Proof.
  split; [reflexivity |]. repeat constructor; [discriminate |].
  eexists; reflexivity.
Qed.

Lemma render_isolated_witness :
  ∃ o f w',
    GymGame_render rendered_once two_games = (w', inr (o, f))
    ∧ ∀ calls : list call,
        results first_game calls w' = results first_game calls two_games.
Proof. apply render_isolated. apply renderable_rendered_once. Defined.

Lemma render_replaces_render_copy_witness :
  ∃ c f w',
    GymGame_render rendered_once two_games
    = (w', inr (Object first_game (Some (Object c None)), f))
    ∧ heap two_games !! env c = None
    ∧ renderable w' (Object first_game (Some (Object c None))).
Proof.
  apply render_replaces_render_copy. apply renderable_rendered_once.
Defined.

Lemma render_shows_current_state_witness :
  ∃ c w',
    GymGame_render (Object first_game None) two_games
    = (w', inr (Object first_game (Some (Object c None)),
                (env_render (state (discrete_env 4 100 200))).2))
    ∧ heap w' !! env first_game = Some (discrete_env 4 100 200)
    ∧ heap w' !! env c
      = Some (with_state (discrete_env 4 100 200)
                (env_render (state (discrete_env 4 100 200))).1).
Proof.
  apply (render_shows_current_state first_game None two_games
           (discrete_env 4 100 200)); [| reflexivity].
  split; [reflexivity | constructor].
Defined.

Lemma render_consumes_a_draw_witness :
  ∃ o f w',
    GymGame_render rendered_once two_games = (w', inr (o, f))
    ∧ np_random w'
      = record_draw (np_random two_games) (Randint 1000000000).
Proof. apply render_consumes_a_draw. apply renderable_rendered_once. Defined.

Lemma close_closes_render_copies_witness :
  ∃ w', GymGame_close rendered_once two_games = (w', inr ())
        ∧ (∀ l e, l ∈ chain_envs rendered_once →
                  heap two_games !! l = Some e →
                  heap w' !! l = Some (closed e))
        ∧ (∀ l, l ∉ chain_envs rendered_once →
                heap w' !! l = heap two_games !! l)
        ∧ np_random w' = np_random two_games.
Proof.
  apply (close_closes_render_copies rendered_once two_games).
  - apply NoDup_cons. split; [| apply NoDup_singleton].
    intros H. apply list_elem_of_singleton in H. discriminate H.
  - repeat constructor; eexists; reflexivity.
Defined.

Lemma reset_leaves_generator_witness :
  ∃ w1 v,
    GymGame_reset first_game (Some 7) two_games
    = (w1, inr (env_reset (state (discrete_env 4 100 200)) (Some 7)).2)
    ∧ np_random w1 = np_random two_games
    ∧ (sample_action first_game false w1).2 = inr v
    ∧ (sample_action first_game false two_games).2 = inr v.
Proof.
  apply (reset_leaves_generator first_game (Some 7) two_games
           (discrete_env 4 100 200)); reflexivity.
Defined.

Lemma str_innermost_name_witness : GymGame_str cartpole = inr cartpole_name.
Proof.
  apply (str_innermost_name
           ["<"; "T"; "i"; "m"; "e"; "L"; "i"; "m"; "i"; "t"; "<"; "C"; "a";
            "r"; "t"; "P"; "o"; "l"; "e"; "E"; "n"; "v"]%char
           cartpole_name [">"; ">"]%char).
  - apply Forall_forall. repeat constructor.
  - intros H. repeat (apply elem_of_cons in H as [H | H]; [discriminate H |]).
    inversion H.
Defined.

Lemma str_plain_text_witness : GymGame_str cartpole_name = inr cartpole_name.
Proof.
  apply (str_plain_text cartpole_name).
  apply Forall_forall. repeat constructor.
Defined.
